(** * Pepper: the lexer, the symbol table and the command-line front end

    A shallow embedding of the parts of the interpreter that the properties
    below are about:

    - [gettoken] and [new_lexer] of [src/lex.c], and its second lexer
      [next_tok];
    - [read_file], [run_script], [repl] and [main] of the front end;
    - the symbol table's [resolve] and [define_free], whose C code is not
      among the sources and which are modelled from the specification.

    Conventions.  A [char] is an [ascii]; a C string in memory is a
    [list ascii] read with [char_at], which yields NUL at and past the
    terminator.  Offsets and counters are natural numbers.  Loops are
    fixpoints over an explicit fuel, and a run that exhausts it is reported
    as [OutOfFuel]; the theorems show that the fuel handed out is enough. *)

From Stdlib Require Import Ascii.
From stdpp Require Import gmap strings list.

(** ** Results of fallible computations *)

(** How a computation ends: it returns a value; it ends the process with
    [exit(code)]; it is still running when its fuel is spent; or it stores
    outside a buffer, which is undefined behaviour in C. *)
Inductive result (A : Type) : Type :=
| Ok (a : A)
| Exit (code : Z)
| OutOfFuel
| BufferOverflow.

Arguments Ok {A} a.
Arguments Exit {A} code.
Arguments OutOfFuel {A}.
Arguments BufferOverflow {A}.

Definition bind {A B : Type} (r : result A) (k : A -> result B) : result B :=
  match r with
  | Ok a => k a
  | Exit code => Exit code
  | OutOfFuel => OutOfFuel
  | BufferOverflow => BufferOverflow
  end.

Notation "'let*' p ':=' e 'in' k" := (bind e (fun p => k))
  (at level 10, p pattern, e at level 200, k at level 200).

(** ** Characters *)

Definition NUL : ascii := "000".
Definition NEWLINE : ascii := "010".
Definition DQUOTE : ascii := "034".
Definition BACKSLASH : ascii := "092".

(** [s[i]] for a NUL-terminated string [s]. *)
Definition char_at (s : list ascii) (i : nat) : ascii := nth i s NUL.

(** [isspace] in the C locale: space, and tab to carriage return. *)
Definition isspace (ch : ascii) : bool :=
  Ascii.eqb ch " " || (Ascii.leb "009" ch && Ascii.leb ch "013").

Definition isdigit (ch : ascii) : bool :=
  Ascii.leb "0" ch && Ascii.leb ch "9".

Definition is_letter (ch : ascii) : bool :=
  (Ascii.leb "a" ch && Ascii.leb ch "z")
  || (Ascii.leb "A" ch && Ascii.leb ch "Z")
  || Ascii.eqb ch "_".

(** The bytes of a buffer up to its first NUL: the C string it holds. *)
Fixpoint c_string (buf : list ascii) : list ascii :=
  match buf with
  | [] => []
  | c :: buf' => if Ascii.eqb c NUL then [] else c :: c_string buf'
  end.

(** [strcmp(a, b) == 0] *)
Definition strcmp_eq (buf : list ascii) (s : string) : bool :=
  bool_decide (c_string buf = String.list_ascii_of_string s).

(** ** Tokens and the lexer state *)

Inductive token_type : Set :=
| TOKEN_ILLEGAL | TOKEN_EOF | TOKEN_IDENT | TOKEN_INT | TOKEN_FUNCTION
| TOKEN_LET | TOKEN_TRUE | TOKEN_FALSE | TOKEN_IF | TOKEN_ELSE | TOKEN_FOR
| TOKEN_IN | TOKEN_WHILE | TOKEN_RETURN | TOKEN_ASSIGN | TOKEN_PLUS
| TOKEN_MINUS | TOKEN_BANG | TOKEN_ASTERISK | TOKEN_SLASH | TOKEN_PERCENT
| TOKEN_LT | TOKEN_LTE | TOKEN_GT | TOKEN_GTE | TOKEN_EQ | TOKEN_NOT_EQ
| TOKEN_COMMA | TOKEN_SEMICOLON | TOKEN_LPAREN | TOKEN_RPAREN | TOKEN_LBRACE
| TOKEN_RBRACE | TOKEN_STRING | TOKEN_LBRACKET | TOKEN_RBRACKET | TOKEN_AND
| TOKEN_OR | TOKEN_BREAK | TOKEN_CONTINUE | TOKEN_COLON.

(** [struct lexer]: the input and the cursor into it. *)
Record lexer : Type := Lexer {
  input : list ascii;
  pos : nat;
  cur_lineno : nat;
  cur_linepos : nat;
}.

(** The size of [literal], as [gettoken]'s [memset] has it. *)
Definition LITERAL_SIZE : nat := 64.

(** [struct token].  [start] and [end_] are offsets into the input (pointers
    into it in C); [tok_pos] is the field [pos] of the token. *)
Record token : Type := Token {
  type : token_type;
  literal : list ascii;
  start : nat;
  end_ : nat;
  line : nat;
  tok_pos : nat;
}.

Definition new_lexer (s : list ascii) : lexer :=
  {| input := s; pos := 0; cur_lineno := 1; cur_linepos := 0 |}.

Definition set_type (ty : token_type) (t : token) : token :=
  {| type := ty; literal := literal t; start := start t; end_ := end_ t;
     line := line t; tok_pos := tok_pos t |}.

Definition set_literal (buf : list ascii) (t : token) : token :=
  {| type := type t; literal := buf; start := start t; end_ := end_ t;
     line := line t; tok_pos := tok_pos t |}.

Definition set_start (i : nat) (t : token) : token :=
  {| type := type t; literal := literal t; start := i; end_ := end_ t;
     line := line t; tok_pos := tok_pos t |}.

Definition set_end (i : nat) (t : token) : token :=
  {| type := type t; literal := literal t; start := start t; end_ := i;
     line := line t; tok_pos := tok_pos t |}.

(** [t->line = l->cur_lineno; t->pos = l->cur_linepos;] *)
Definition set_line_pos (l : lexer) (t : token) : token :=
  {| type := type t; literal := literal t; start := start t; end_ := end_ t;
     line := cur_lineno l; tok_pos := cur_linepos l |}.

(** [memset(t->literal, 0, 64)] *)
Definition memset_literal (t : token) : token :=
  set_literal (replicate LITERAL_SIZE NUL) t.

(** [t->literal[i] = c], checked against the buffer. *)
Definition literal_write (i : nat) (c : ascii) (t : token) : result token :=
  if i <? length (literal t)
  then Ok (set_literal (<[i := c]> (literal t)) t)
  else BufferOverflow.

(** [t->type = ty; t->literal[0] = ch; t->literal[1] = 0;] *)
Definition char_token (ty : token_type) (ch : ascii) (t : token) : result token :=
  let* t := literal_write 0 ch (set_type ty t) in
  literal_write 1 NUL t.

(** Stores the characters of [s] from offset [i] on, then the terminator. *)
Fixpoint strcpy_from (i : nat) (s : list ascii) (t : token) : result token :=
  match s with
  | [] => literal_write i NUL t
  | c :: s' => let* t := literal_write i c t in strcpy_from (S i) s' t
  end.

(** [strcpy(t->literal, s)] *)
Definition strcpy_literal (s : string) (t : token) : result token :=
  strcpy_from 0 (String.list_ascii_of_string s) t.

(** [ch = l->input[l->pos++]; l->cur_linepos++;] *)
Definition next_char (l : lexer) : ascii * lexer :=
  (char_at (input l) (pos l),
   {| input := input l; pos := S (pos l); cur_lineno := cur_lineno l;
      cur_linepos := S (cur_linepos l) |}).

(** [l->pos++; l->cur_linepos++;] *)
Definition advance (l : lexer) : lexer := snd (next_char l).

(** [l->pos--; l->cur_linepos--;] *)
Definition unread (l : lexer) : lexer :=
  {| input := input l; pos := pred (pos l); cur_lineno := cur_lineno l;
     cur_linepos := pred (cur_linepos l) |}.

(** [l->cur_lineno++; l->cur_linepos = 0;] when [ch] is a newline. *)
Definition line_advance (ch : ascii) (l : lexer) : lexer :=
  if Ascii.eqb ch NEWLINE
  then {| input := input l; pos := pos l; cur_lineno := S (cur_lineno l);
          cur_linepos := 0 |}
  else l.

(** Fuel for one loop over the input: every loop reads a fresh character
    each round and stops at the terminator. *)
Definition loop_fuel (l : lexer) : nat := S (length (input l)).

(** The whitespace loop at the head of [gettoken]. *)
Fixpoint skip_whitespace (fuel : nat) (l : lexer) (ch : ascii)
  : result (lexer * ascii) :=
  if isspace ch then
    match fuel with
    | 0 => OutOfFuel
    | S fuel' =>
        let '(ch', l') := next_char (line_advance ch l) in
        skip_whitespace fuel' l' ch'
    end
  else Ok (l, ch).

(** The loop of the comment case: up to the newline or the terminator. *)
Fixpoint skip_comment (fuel : nat) (l : lexer) : result lexer :=
  let c := char_at (input l) (pos l) in
  if negb (Ascii.eqb c NEWLINE) && negb (Ascii.eqb c NUL) then
    match fuel with
    | 0 => OutOfFuel
    | S fuel' => skip_comment fuel' (advance l)
    end
  else Ok l.

(** The loop of the string case: up to an unescaped closing quote or the
    terminator. *)
Fixpoint read_string (fuel : nat) (l : lexer) : result lexer :=
  match fuel with
  | 0 => OutOfFuel
  | S fuel' =>
      let '(ch, l') := next_char l in
      if Ascii.eqb ch NUL
         || (Ascii.eqb ch DQUOTE
             && negb (Ascii.eqb (char_at (input l') (pos l' - 2)) BACKSLASH))
      then Ok l'
      else read_string fuel' l'
  end.

(** [get_ident]: the keyword table. *)
Definition get_ident (t : token) : token :=
  let lit := literal t in
  if strcmp_eq lit "let" then set_type TOKEN_LET t
  else if strcmp_eq lit "fn" then set_type TOKEN_FUNCTION t
  else if strcmp_eq lit "true" then set_type TOKEN_TRUE t
  else if strcmp_eq lit "false" then set_type TOKEN_FALSE t
  else if strcmp_eq lit "if" then set_type TOKEN_IF t
  else if strcmp_eq lit "else" then set_type TOKEN_ELSE t
  else if strcmp_eq lit "return" then set_type TOKEN_RETURN t
  else if strcmp_eq lit "while" then set_type TOKEN_WHILE t
  else if strcmp_eq lit "for" then set_type TOKEN_FOR t
  else if strcmp_eq lit "in" then set_type TOKEN_IN t
  else if strcmp_eq lit "break" then set_type TOKEN_BREAK t
  else if strcmp_eq lit "continue" then set_type TOKEN_CONTINUE t
  else set_type TOKEN_IDENT t.

Section Gettoken.

(** [MAX_IDENT_LENGTH] is a macro of [lex.h], which is not among the
    sources; it is a parameter here. *)
Variable MAX_IDENT_LENGTH : nat.

(** The loops of the default case, which differ in their condition only:
    [while (cond(ch) && i < MAX_IDENT_LENGTH - 1)
       { t->literal[i++] = ch; ch = l->input[l->pos++]; l->cur_linepos++; }] *)
Fixpoint read_run (cond : ascii -> bool) (fuel : nat)
    (l : lexer) (t : token) (ch : ascii) (i : nat)
  : result (lexer * token * nat) :=
  if cond ch && (i <? MAX_IDENT_LENGTH - 1) then
    match fuel with
    | 0 => OutOfFuel
    | S fuel' =>
        let* t' := literal_write i ch t in
        let '(ch', l') := next_char l in
        read_run cond fuel' l' t' ch' (S i)
    end
  else Ok (l, t, i).

(** The [switch] of [gettoken]; [rec] is the recursive call of the comment
    case.  A case that [break]s returns the state it leaves. *)
Definition lex_switch (rec : lexer -> token -> result (lexer * token))
    (ch : ascii) (l : lexer) (t : token) : result (lexer * token) :=
  let ch_next := char_at (input l) (pos l) in
  match ch with
  | "="%char =>
      if Ascii.eqb ch_next "="
      then let* t := strcpy_literal "==" (set_type TOKEN_EQ t) in Ok (advance l, t)
      else let* t := char_token TOKEN_ASSIGN ch t in Ok (l, t)
  | ";"%char => let* t := char_token TOKEN_SEMICOLON ch t in Ok (l, t)
  | ":"%char => let* t := char_token TOKEN_COLON ch t in Ok (l, t)
  | "("%char => let* t := char_token TOKEN_LPAREN ch t in Ok (l, t)
  | ")"%char => let* t := char_token TOKEN_RPAREN ch t in Ok (l, t)
  | ","%char => let* t := char_token TOKEN_COMMA ch t in Ok (l, t)
  | "+"%char => let* t := char_token TOKEN_PLUS ch t in Ok (l, t)
  | "-"%char => let* t := char_token TOKEN_MINUS ch t in Ok (l, t)
  | "!"%char =>
      if Ascii.eqb ch_next "="
      then let* t := strcpy_literal "!=" (set_type TOKEN_NOT_EQ t) in Ok (advance l, t)
      else let* t := char_token TOKEN_BANG ch t in Ok (l, t)
  | "/"%char =>
      if Ascii.eqb ch_next "/"
      then let* l' := skip_comment (loop_fuel l) l in rec l' t
      else let* t := char_token TOKEN_SLASH ch t in Ok (l, t)
  | "*"%char => let* t := char_token TOKEN_ASTERISK ch t in Ok (l, t)
  | "<"%char =>
      if Ascii.eqb ch_next "="
      then let* t := strcpy_literal "<=" (set_type TOKEN_LTE t) in Ok (advance l, t)
      else let* t := strcpy_literal "<" (set_type TOKEN_LT t) in Ok (l, t)
  | ">"%char =>
      if Ascii.eqb ch_next "="
      then let* t := strcpy_literal ">=" (set_type TOKEN_GTE t) in Ok (advance l, t)
      else let* t := strcpy_literal ">" (set_type TOKEN_GT t) in Ok (l, t)
  | "{"%char => let* t := char_token TOKEN_LBRACE ch t in Ok (l, t)
  | "}"%char => let* t := char_token TOKEN_RBRACE ch t in Ok (l, t)
  | "["%char => let* t := char_token TOKEN_LBRACKET ch t in Ok (l, t)
  | "]"%char => let* t := char_token TOKEN_RBRACKET ch t in Ok (l, t)
  | "%"%char => let* t := char_token TOKEN_PERCENT ch t in Ok (l, t)
  | "|"%char =>
      if Ascii.eqb ch_next "|"
      then let* t := strcpy_literal "||" (set_type TOKEN_OR t) in Ok (advance l, t)
      else Ok (l, t)
  | "&"%char =>
      if Ascii.eqb ch_next "&"
      then let* t := strcpy_literal "&&" (set_type TOKEN_AND t) in Ok (advance l, t)
      else Ok (l, t)
  | "034"%char =>
      let t := set_start (pos l) (set_type TOKEN_STRING t) in
      let* l' := read_string (loop_fuel l) l in
      Ok (l', set_end (pos l' - 1) t)
  | "000"%char =>
      let* t := literal_write 0 NUL (set_type TOKEN_EOF t) in Ok (l, t)
  | _ =>
      if is_letter ch then
        let* (l', t, i) := read_run (fun c => is_letter c || isdigit c)
                                (loop_fuel l) l t ch 0 in
        let* t := literal_write i NUL t in
        Ok (unread l', get_ident t)
      else if isdigit ch then
        let* (l', t, i) := read_run isdigit (loop_fuel l) l t ch 0 in
        let* t := literal_write i NUL t in
        Ok (unread l', set_type TOKEN_INT t)
      else
        let* t := char_token TOKEN_ILLEGAL ch t in Ok (l, t)
  end.

(** [gettoken(l, t)]: the lexer and the token as the call leaves them (the C
    function returns 1 on every path). *)
Fixpoint gettoken_fuel (fuel : nat) (l : lexer) (t : token)
  : result (lexer * token) :=
  match fuel with
  | 0 => OutOfFuel
  | S fuel' =>
      let '(ch, l) := next_char l in
      let t := memset_literal t in
      let* (l, ch) := skip_whitespace (loop_fuel l) l ch in
      let t := set_line_pos l t in
      lex_switch (gettoken_fuel fuel') ch l t
  end.

Definition gettoken (l : lexer) (t : token) : result (lexer * token) :=
  gettoken_fuel (loop_fuel l) l t.

End Gettoken.


(** ** Vocabulary for the statements about the lexer *)

(** The tokens that the default case of [gettoken] produces: identifiers,
    keywords and integer literals. *)
Definition is_word_token (ty : token_type) : bool :=
  match ty with
  | TOKEN_IDENT | TOKEN_INT | TOKEN_FUNCTION | TOKEN_LET | TOKEN_TRUE
  | TOKEN_FALSE | TOKEN_IF | TOKEN_ELSE | TOKEN_RETURN | TOKEN_WHILE
  | TOKEN_FOR | TOKEN_IN | TOKEN_BREAK | TOKEN_CONTINUE => true
  | _ => false
  end.

(** The cursor once one more character [c] has been read: the offset and
    the column advance, and a newline starts the next line. *)
Definition after_char (l : lexer) (c : ascii) : lexer :=
  line_advance c (advance l).

(** The cursor once the characters [cs] have been read. *)
Definition after_chars (cs : list ascii) (l : lexer) : lexer :=
  foldl after_char l cs.

(** The cursor [n] characters further on the same line. *)
Definition advance_by (n : nat) (l : lexer) : lexer :=
  {| input := input l; pos := pos l + n; cur_lineno := cur_lineno l;
     cur_linepos := cur_linepos l + n |}.

(** The literal buffer once the characters [seg] are stored from [i] on. *)
Fixpoint write_run (i : nat) (seg : list ascii) (lit : list ascii) : list ascii :=
  match seg with
  | [] => lit
  | c :: seg' => write_run (S i) seg' (<[i := c]> lit)
  end.

(** What [gettoken] promises about the literal: the call returns, every
    store stayed inside the buffer (the result is [Ok]), and the literal of
    a word token is shorter than [max]. *)
Definition literal_bounded (max : nat) (r : result (lexer * token)) : Prop :=
  exists l' t',
    r = Ok (l', t')
    /\ length (literal t') = LITERAL_SIZE
    /\ (is_word_token (type t') = true ->
        length (c_string (literal t')) <= max - 1).

(** * The symbol table

    Modelled from the spec: the symbol table's C code (symbol_table.c) is
    not among the sources.  What follows is section 4.2 of the
    specification put into definitions: a stack of scopes, each with a
    mapping from names to symbols, the number of definitions made in it and
    its list of captured symbols. *)

Module SymbolTable.

Inductive symbol_scope : Set :=
| ScopeGlobal | ScopeLocal | ScopeFree | ScopeBuiltin | ScopeFunction.

Global Instance symbol_scope_eq_dec : EqDecision symbol_scope.
Proof. solve_decision. Defined.

Record symbol : Type := Symbol {
  name : string;
  scope : symbol_scope;
  index : nat;
}.

Global Instance symbol_eq_dec : EqDecision symbol.
Proof. solve_decision. Defined.

Record scope_table : Type := ScopeTable {
  store : gmap string symbol;
  num_definitions : nat;
  free_symbols : list symbol;
}.

(** The stack of scopes, the current (innermost) scope first and the
    outermost last. *)
Definition symbol_table : Type := list scope_table.

Definition empty_scope : scope_table :=
  {| store := ∅; num_definitions := 0; free_symbols := [] |}.

(** A new table has the outermost scope only. *)
Definition symbol_table_new : symbol_table := [empty_scope].

Definition push_scope (t : symbol_table) : symbol_table := empty_scope :: t.

(** [pop_scope] returns the popped scope with the rest of the stack. *)
Definition pop_scope (t : symbol_table) : option (scope_table * symbol_table) :=
  match t with
  | [] => None
  | s :: outer => Some (s, outer)
  end.

(** Inserts [sym] in a scope's mapping under its own name. *)
Definition store_symbol (sym : symbol) (s : scope_table) : scope_table :=
  {| store := <[name sym := sym]> (store s);
     num_definitions := num_definitions s;
     free_symbols := free_symbols s |}.

(** [define(name)]: [Global] in the outermost scope, else [Local]; indices
    are dense from 0. *)
Definition define (n : string) (t : symbol_table) : option (symbol * symbol_table) :=
  match t with
  | [] => None
  | s :: outer =>
      let sym := {| name := n;
                    scope := match outer with
                             | [] => ScopeGlobal
                             | _ => ScopeLocal
                             end;
                    index := num_definitions s |} in
      Some (sym, {| store := <[n := sym]> (store s);
                    num_definitions := S (num_definitions s);
                    free_symbols := free_symbols s |} :: outer)
  end.

(** [define_function_name(name)] *)
Definition define_function_name (n : string) (t : symbol_table)
  : option (symbol * symbol_table) :=
  match t with
  | [] => None
  | s :: outer =>
      let sym := {| name := n; scope := ScopeFunction; index := 0 |} in
      Some (sym, store_symbol sym s :: outer)
  end.

(** [define_builtin(index, name)]: in the outermost scope. *)
Fixpoint define_builtin (i : nat) (n : string) (t : symbol_table)
  : option (symbol * symbol_table) :=
  let sym := {| name := n; scope := ScopeBuiltin; index := i |} in
  match t with
  | [] => None
  | [s] => Some (sym, [store_symbol sym s])
  | s :: outer =>
      match define_builtin i n outer with
      | Some (_, outer') => Some (sym, s :: outer')
      | None => None
      end
  end.

(** The symbol [define_free] hands out in scope [s] for [original]: a
    [Free] symbol whose index is the length of the list before the append,
    which is the new length minus one. *)
Definition free_symbol (original : symbol) (s : scope_table) : symbol :=
  {| name := name original; scope := ScopeFree;
     index := length (free_symbols s ++ [original]) - 1 |}.

(** [define_free(original)] in one scope: the capture is appended to the
    scope's [free_symbols] and recorded in its mapping, so that resolving
    the name again in this scope finds the same [Free] symbol. *)
Definition scope_define_free (original : symbol) (s : scope_table)
  : symbol * scope_table :=
  let sym := free_symbol original s in
  (sym, {| store := <[name sym := sym]> (store s);
           num_definitions := num_definitions s;
           free_symbols := free_symbols s ++ [original] |}).

(** [define_free(original)] on the current scope of the table. *)
Definition define_free (original : symbol) (t : symbol_table)
  : option (symbol * symbol_table) :=
  match t with
  | [] => None
  | s :: outer =>
      let '(sym, s') := scope_define_free original s in
      Some (sym, s' :: outer)
  end.

(** [resolve(name)]: the current scope first, then the enclosing ones.  A
    [Global] or [Builtin] result of the enclosing scopes is returned as it
    is; any other is captured with [define_free] in the current scope. *)
Fixpoint resolve (n : string) (t : symbol_table)
  : option symbol * symbol_table :=
  match t with
  | [] => (None, [])
  | s :: outer =>
      match store s !! n with
      | Some sym => (Some sym, t)
      | None =>
          match resolve n outer with
          | (None, outer') => (None, s :: outer')
          | (Some sym, outer') =>
              match scope sym with
              | ScopeGlobal | ScopeBuiltin => (Some sym, s :: outer')
              | _ =>
                  match define_free sym (s :: outer') with
                  | Some (fr, t') => (Some fr, t')
                  | None => (None, s :: outer')
                  end
              end
          end
      end
  end.

End SymbolTable.

(** * The front end: [read_file], [run_script], [repl] and [main] *)

(** ** Standard output *)

Inductive printf_arg : Type :=
| ArgInt (z : Z)
| ArgStr (s : string).

(** What the process writes, call by call: [printf] with its format and
    arguments, [puts], and [print_object].  A format is kept as the source
    writes it, escape sequences included. *)
Inductive out_event (object : Type) : Type :=
| Printf (fmt : string) (args : list printf_arg)
| Puts (s : string)
| PrintObject (o : object).

Arguments Printf {object} fmt args.
Arguments Puts {object} s.
Arguments PrintObject {object} o.

(** A computation that writes: what it wrote and how it ended. *)
Definition bind_out {E A B : Type} (m : list E * result A)
    (k : A -> list E * result B) : list E * result B :=
  match m with
  | (out, Ok a) => let '(out', r) := k a in (out ++ out', r)
  | (out, Exit code) => (out, Exit code)
  | (out, OutOfFuel) => (out, OutOfFuel)
  | (out, BufferOverflow) => (out, BufferOverflow)
  end.

(** [EXIT_SUCCESS] and [EXIT_FAILURE] of [<stdlib.h>]. *)
Definition EXIT_SUCCESS : Z := 0.
Definition EXIT_FAILURE : Z := 1.

Definition VERSION_MAJOR : Z := 0.
Definition VERSION_MINOR : Z := 0.
Definition VERSION_PATCH : Z := 1.

Definition print_version {object : Type} : list (out_event object) :=
  [Printf "Pepper v%d.%d.%d\n"
          [ArgInt VERSION_MAJOR; ArgInt VERSION_MINOR; ArgInt VERSION_PATCH]].

(** ** Reading a file *)

(** [uint32_t] arithmetic. *)
Definition wrap32 (n : N) : N := (n mod 2 ^ 32)%N.

Section ReadFile.

(** [BUFSIZ] of [<stdio.h>]. *)
Variable BUFSIZ : nat.

(** The bytes that [realloc] leaves indeterminate, by offset. *)
Variable indeterminate : nat -> ascii.

(** [calloc(n, sizeof(char))]; the allocation is taken to succeed, as the
    [assert] demands. *)
Definition calloc (n : nat) : list ascii := replicate n NUL.

(** [realloc(buf, n)]: the old bytes are kept as far as they fit. *)
Definition realloc (buf : list ascii) (n : nat) : list ascii :=
  take n buf ++ map indeterminate (seq (length buf) (n - length buf)).

(** The stores of [fread(buf, 1, n, f)]: the bytes read land at the start
    of [buf]. *)
Definition store_chunk (chunk buf : list ascii) : result (list ascii) :=
  if length chunk <=? length buf
  then Ok (chunk ++ drop (length chunk) buf)
  else BufferOverflow.

(** [buf[i] = c] *)
Definition store_byte (i : nat) (c : ascii) (buf : list ascii)
  : result (list ascii) :=
  if i <? length buf then Ok (<[i := c]> buf) else BufferOverflow.

(** The loop of [read_file]; [f] is the part of the file not read yet.
    [while ((read = fread(input, sizeof(char), BUFSIZ, f)) > 0)
       { size += read;
         if (read >= BUFSIZ) input = realloc(input, size + BUFSIZ); }] *)
Fixpoint read_loop (fuel : nat) (f : list ascii) (input : list ascii)
    (size : N) : result (list ascii * N) :=
  let chunk := take BUFSIZ f in
  let* input := store_chunk chunk input in
  let read := wrap32 (N.of_nat (length chunk)) in
  if (0 <? read)%N then
    match fuel with
    | 0 => OutOfFuel
    | S fuel' =>
        let size := wrap32 (size + read) in
        let input :=
          if (wrap32 (N.of_nat BUFSIZ) <=? read)%N
          then realloc input (N.to_nat (wrap32 (size + N.of_nat BUFSIZ)))
          else input in
        read_loop fuel' (drop BUFSIZ f) input size
    end
  else Ok (input, size).

(** The format of the message of [read_file], which holds two quotes. *)
Definition could_not_open : string :=
  "Could not open \" +:+ String DQUOTE "%s\" +:+ String DQUOTE " for reading".

(** [read_file(filename)]: the block it returns.  [fs] is the file system:
    the bytes of each file that [fopen] can open for reading. *)
Definition read_file {object : Type} (fs : string -> option (list ascii))
    (filename : string) : list (out_event object) * result (list ascii) :=
  let input := calloc BUFSIZ in
  match fs filename with
  | None => ([Printf could_not_open [ArgStr filename]], Exit 1)
  | Some content =>
      ([], let* (input, size) := read_loop (S (length content)) content input 0 in
           store_byte (N.to_nat size) NUL input)
  end.

End ReadFile.

(** ** The interpreter behind the front end *)

(** Modelled from the spec: [object.h] is not among the sources.  The front
    end names [OBJ_COMPILED_FUNCTION] and [OBJ_BUILTIN]; the other tags are
    the variants of the specification's value model. *)
Inductive object_type : Set :=
| OBJ_NULL | OBJ_BOOL | OBJ_INT | OBJ_STRING | OBJ_ARRAY | OBJ_MAP
| OBJ_COMPILED_FUNCTION | OBJ_CLOSURE | OBJ_BUILTIN.

Global Instance object_type_eq_dec : EqDecision object_type.
Proof. solve_decision. Defined.

(** The parser, the compiler and the virtual machine, as the front end
    uses them ([compiler.h], [object.h], [vm.h]).  Their code is not among
    the sources, so they are an interface here.  A C function that changes
    the struct it is handed returns the changed struct.

    The compiler made by [compiler_new_with_state] points to the caller's
    symbol table and constant pool: what they hold after a compilation is
    read through [compiler_symbol_table] and [compiler_constants].  The
    machine has a globals array of its own, [vm_globals], which
    [vm_new_with_globals] fills from the caller's. *)
Class Interpreter : Type := {
  program : Type;
  parser : Type;
  compiler : Type;
  bytecode : Type;
  vm : Type;
  object : Type;
  symbol_table : Type;
  object_list : Type;
  new_parser : lexer -> parser;
  parse_program : parser -> program * parser;
  errors : parser -> nat;
  error_messages : parser -> nat -> string;
  symbol_table_new : symbol_table;
  make_object_list : Z -> object_list;
  obj_type : object -> object_type;
  compiler_new : compiler;
  compiler_new_with_state : symbol_table -> object_list -> compiler;
  compile_program : compiler -> program -> Z * compiler;
  compiler_error_str : Z -> string;
  get_bytecode : compiler -> bytecode;
  compiler_symbol_table : compiler -> symbol_table;
  compiler_constants : compiler -> object_list;
  GLOBALS_SIZE : nat;
  vm_new : bytecode -> vm;
  vm_new_with_globals : bytecode -> list object -> vm;
  vm_run : vm -> Z * vm;
  vm_stack_last_popped : vm -> object;
  vm_globals : vm -> list object;
}.

Section FrontEnd.

Context {I : Interpreter}.

Variable BUFSIZ : nat.
Variable indeterminate : nat -> ascii.

Abbreviation event := (out_event object).

(** ** The script runner *)

(** The loop that prints the parser's messages, one call per message. *)
Definition print_errors (print : string -> event) (p : parser) : list event :=
  map (fun i => print (error_messages p i)) (seq 0 (errors p)).

(** [run_script(filename)]: what it prints and the value it returns, or the
    exit of [read_file]. *)
Definition run_script (fs : string -> option (list ascii)) (filename : string)
  : list event * result Z :=
  bind_out (read_file BUFSIZ indeterminate fs filename) (fun input =>
    let lexer := new_lexer input in
    let parser := new_parser lexer in
    let '(program, parser) := parse_program parser in
    if 0 <? errors parser then
      (print_errors Puts parser, Ok EXIT_FAILURE)
    else
      let compiler := compiler_new in
      let '(err, compiler) := compile_program compiler program in
      if negb (err =? 0)%Z then
        ([Printf "SyntaxError: %s\n" [ArgStr (compiler_error_str err)]],
         Ok EXIT_FAILURE)
      else
        let code := get_bytecode compiler in
        let machine := vm_new code in
        let '(err, machine) := vm_run machine in
        if negb (err =? 0)%Z then
          ([Printf "Error executing bytecode: %d\n" [ArgInt err]],
           Ok EXIT_FAILURE)
        else ([], Ok EXIT_SUCCESS)).

(** ** The read-eval-print loop *)

(** The variables of [repl] that live across iterations: the objects
    behind [symbol_table] and [constants], and the array [globals]. *)
Record repl_state : Type := ReplState {
  st_symbol_table : symbol_table;
  st_constants : object_list;
  st_globals : list object;
}.

(** [for (i = 0; i < GLOBALS_SIZE; i++) globals[i] = machine->globals[i];]
    A slot that either array does not have is left alone. *)
Definition copy_globals (machine : vm) (globals : list object) : list object :=
  foldl (fun g i => match vm_globals machine !! i with
                    | Some o => <[i := o]> g
                    | None => g
                    end)
        globals (seq 0 GLOBALS_SIZE).

(** How one round of the loop body ends: with the next round ([continue]
    or the end of the body), or by leaving the loop. *)
Inductive loop_step : Type :=
| NextRound (st : repl_state)
| LeaveLoop (st : repl_state).

(** The body of [while (1)]; [line] is what [fgets] delivers, [None] for
    [NULL]. *)
Definition repl_body (st : repl_state) (line : option (list ascii))
  : list event * loop_step :=
  let out := [Printf ">> " []] in
  match line with
  | None => (out, NextRound st)
  | Some input =>
      let lexer := new_lexer input in
      let parser := new_parser lexer in
      let '(program, parser) := parse_program parser in
      if 0 <? errors parser then
        (out ++ Printf "Parsing error:\n" []
             :: print_errors (fun m => Printf "- %s\n" [ArgStr m]) parser,
         NextRound st)
      else
        let compiler :=
          compiler_new_with_state (st_symbol_table st) (st_constants st) in
        let '(err, compiler) := compile_program compiler program in
        let st := {| st_symbol_table := compiler_symbol_table compiler;
                     st_constants := compiler_constants compiler;
                     st_globals := st_globals st |} in
        if negb (err =? 0)%Z then
          (out ++ [Puts (compiler_error_str err)], NextRound st)
        else
          let code := get_bytecode compiler in
          let machine := vm_new_with_globals code (st_globals st) in
          let '(err, machine) := vm_run machine in
          if negb (err =? 0)%Z then
            (out ++ [Printf "Error executing bytecode: %d\n" [ArgInt err]],
             NextRound st)
          else
            let obj := vm_stack_last_popped machine in
            let out :=
              if bool_decide (obj_type obj <> OBJ_COMPILED_FUNCTION)
                 && bool_decide (obj_type obj <> OBJ_BUILTIN)
              then out ++ [PrintObject obj; Puts ""]
              else out in
            (out,
             NextRound {| st_symbol_table := st_symbol_table st;
                          st_constants := st_constants st;
                          st_globals := copy_globals machine (st_globals st) |})
  end.

(** [while (1) { ... }], for [fuel] rounds; [stdin k] is what the [k]-th
    call of [fgets] delivers. *)
Fixpoint repl_loop (fuel : nat) (stdin : nat -> option (list ascii)) (k : nat)
    (st : repl_state) : list event * result repl_state :=
  match fuel with
  | 0 => ([], OutOfFuel)
  | S fuel' =>
      let '(out, step) := repl_body st (stdin k) in
      match step with
      | NextRound st' =>
          let '(out', r) := repl_loop fuel' stdin (S k) st' in
          (out ++ out', r)
      | LeaveLoop st' => (out, Ok st')
      end
  end.

(** The state with which round [k + n] starts, when round [k] starts with
    [st]. *)
Fixpoint repl_state_after (n : nat) (stdin : nat -> option (list ascii))
    (k : nat) (st : repl_state) : repl_state :=
  match n with
  | 0 => st
  | S n' =>
      match snd (repl_body st (stdin k)) with
      | NextRound st' | LeaveLoop st' => repl_state_after n' stdin (S k) st'
      end
  end.

(** [repl()].  [globals] is what the array holds when it is declared. *)
Definition repl (fuel : nat) (stdin : nat -> option (list ascii))
    (globals : list object) : list event * result Z :=
  let st := {| st_symbol_table := symbol_table_new;
               st_constants := make_object_list 64;
               st_globals := globals |} in
  bind_out (print_version ++ [Printf "Press CTRL+c to exit\n\n" []], Ok tt)
    (fun _ =>
       bind_out (repl_loop fuel stdin 0 st) (fun _ => ([], Ok 0%Z))).

(** ** The entry point *)

(** [main(argc, argv)]; [argc] is the length of [argv]. *)
Definition main (fuel : nat) (stdin : nat -> option (list ascii))
    (globals : list object) (fs : string -> option (list ascii))
    (argv : list string) : list event * result Z :=
  if length argv <? 2 then repl fuel stdin globals
  else
    let arg := nth 1 argv "" in
    if bool_decide (arg = "--version")
    then (print_version, Ok 0%Z)
    else run_script fs arg.

End FrontEnd.

(** The status with which the process ends: what [main] returns, or the
    argument of [exit]. *)
Definition exit_code (r : result Z) : option Z :=
  match r with
  | Ok code | Exit code => Some code
  | OutOfFuel | BufferOverflow => None
  end.

(** * A miniature interpreter

    Modelled from the spec: the parser, the compiler and the virtual
    machine are not among the sources.  This module is a small interpreter
    with the interface above, used to run the front end on concrete input.
    It covers integer and string literals, global [let] bindings,
    identifiers and [+], and follows the specification where the front end
    can tell: a [let] defines a global in the symbol table, every literal
    is added to the constant pool, an identifier that does not resolve is a
    compile error, adding a string to an integer is a run-time error, and
    the machine works on a globals array of its own.  Tokens come from
    [gettoken]. *)
Module Sample.

Inductive value : Type :=
| Null
| Integer (z : Z)
| Str (s : list ascii)
| Builtin (i : nat).

Definition value_type (v : value) : object_type :=
  match v with
  | Null => OBJ_NULL
  | Integer _ => OBJ_INT
  | Str _ => OBJ_STRING
  | Builtin _ => OBJ_BUILTIN
  end.

Inductive expr : Type :=
| EInt (z : Z)
| EStr (s : list ascii)
| EIdent (x : string)
| EAdd (a b : expr).

Inductive stmt : Type :=
| SLet (x : string) (e : expr)
| SExpr (e : expr).

Inductive instr : Type :=
| OpConstant (k : nat)
| OpSetGlobal (i : nat)
| OpGetGlobal (i : nat)
| OpAdd
| OpPop.

Definition MAX_IDENT_LENGTH : nat := 64.

Definition blank_token : token :=
  {| type := TOKEN_ILLEGAL; literal := []; start := 0; end_ := 0;
     line := 0; tok_pos := 0 |}.

(** The tokens up to the end of the input. *)
Fixpoint all_tokens (fuel : nat) (l : lexer) (t : token) : list token :=
  match fuel with
  | 0 => []
  | S fuel' =>
      match gettoken MAX_IDENT_LENGTH l t with
      | Ok (l', t') =>
          match type t' with
          | TOKEN_EOF => []
          | _ => t' :: all_tokens fuel' l' t'
          end
      | _ => []
      end
  end.

(** The statements, each the tokens before a semicolon. *)
Fixpoint split_statements (ts cur : list token) : list (list token) :=
  match ts with
  | [] => match cur with [] => [] | _ => [rev cur] end
  | t :: ts' =>
      match type t with
      | TOKEN_SEMICOLON => rev cur :: split_statements ts' []
      | _ => split_statements ts' (t :: cur)
      end
  end.

Definition digits_value (ds : list ascii) : Z :=
  foldl (fun z d => (10 * z + (Z.of_nat (nat_of_ascii d) - 48))%Z) 0%Z ds.

Definition parse_atom (inp : list ascii) (t : token) : option expr :=
  match type t with
  | TOKEN_INT => Some (EInt (digits_value (c_string (literal t))))
  | TOKEN_STRING => Some (EStr (take (end_ t - start t) (drop (start t) inp)))
  | TOKEN_IDENT =>
      Some (EIdent (String.string_of_list_ascii (c_string (literal t))))
  | _ => None
  end.

Definition parse_expr (inp : list ascii) (ts : list token) : option expr :=
  match ts with
  | [a] => parse_atom inp a
  | [a; op; b] =>
      match type op, parse_atom inp a, parse_atom inp b with
      | TOKEN_PLUS, Some ea, Some eb => Some (EAdd ea eb)
      | _, _, _ => None
      end
  | _ => None
  end.

Definition parse_stmt (inp : list ascii) (ts : list token) : option stmt :=
  match ts with
  | kw :: x :: eq :: e =>
      match type kw, type x, type eq with
      | TOKEN_LET, TOKEN_IDENT, TOKEN_ASSIGN =>
          SLet (String.string_of_list_ascii (c_string (literal x)))
            <$> parse_expr inp e
      | _, _, _ => SExpr <$> parse_expr inp ts
      end
  | _ => SExpr <$> parse_expr inp ts
  end.

Record parser : Type := Parser {
  p_lexer : lexer;
  p_errors : nat;
}.

Definition new_parser (l : lexer) : parser :=
  {| p_lexer := l; p_errors := 0 |}.

Definition parse_program (p : parser) : list stmt * parser :=
  let l := p_lexer p in
  let ts := all_tokens (S (length (input l))) l blank_token in
  let parsed := map (parse_stmt (input l)) (split_statements ts []) in
  (omap id parsed,
   {| p_lexer := l;
      p_errors := length (filter (fun r => r = None) parsed) |}).

Record compiler : Type := Compiler {
  c_symbols : SymbolTable.symbol_table;
  c_constants : list value;
  c_code : list instr;
}.

Definition emit (op : instr) (c : compiler) : compiler :=
  {| c_symbols := c_symbols c; c_constants := c_constants c;
     c_code := c_code c ++ [op] |}.

(** A literal: pooled, then loaded by its index. *)
Definition compile_literal (v : value) (c : compiler) : compiler :=
  emit (OpConstant (length (c_constants c)))
    {| c_symbols := c_symbols c; c_constants := c_constants c ++ [v];
       c_code := c_code c |}.

Definition with_symbols (t : SymbolTable.symbol_table) (c : compiler)
  : compiler :=
  {| c_symbols := t; c_constants := c_constants c; c_code := c_code c |}.

(** Error 1: unknown identifier. *)
Fixpoint compile_expr (e : expr) (c : compiler) : Z * compiler :=
  match e with
  | EInt z => (0%Z, compile_literal (Integer z) c)
  | EStr s => (0%Z, compile_literal (Str s) c)
  | EIdent x =>
      match SymbolTable.resolve x (c_symbols c) with
      | (Some sym, t) =>
          (0%Z, emit (OpGetGlobal (SymbolTable.index sym)) (with_symbols t c))
      | (None, t) => (1%Z, with_symbols t c)
      end
  | EAdd a b =>
      let '(err, c) := compile_expr a c in
      if negb (err =? 0)%Z then (err, c)
      else
        let '(err, c) := compile_expr b c in
        if negb (err =? 0)%Z then (err, c) else (0%Z, emit OpAdd c)
  end.

Definition compile_stmt (s : stmt) (c : compiler) : Z * compiler :=
  match s with
  | SLet x e =>
      let '(err, c) := compile_expr e c in
      if negb (err =? 0)%Z then (err, c)
      else
        match SymbolTable.define x (c_symbols c) with
        | Some (sym, t) =>
            (0%Z, emit (OpSetGlobal (SymbolTable.index sym)) (with_symbols t c))
        | None => (2%Z, c)
        end
  | SExpr e =>
      let '(err, c) := compile_expr e c in
      if negb (err =? 0)%Z then (err, c) else (0%Z, emit OpPop c)
  end.

Fixpoint compile_program (c : compiler) (prog : list stmt) : Z * compiler :=
  match prog with
  | [] => (0%Z, c)
  | s :: prog' =>
      let '(err, c) := compile_stmt s c in
      if negb (err =? 0)%Z then (err, c) else compile_program c prog'
  end.

Record vm : Type := Vm {
  m_code : list instr;
  m_constants : list value;
  m_globals : list value;
  m_stack : list value;
  m_last_popped : value;
}.

Definition GLOBALS_SIZE : nat := 8.

Definition vm_new_with_globals (code : list instr * list value)
    (globals : list value) : vm :=
  {| m_code := code.1; m_constants := code.2; m_globals := globals;
     m_stack := []; m_last_popped := Null |}.

Definition vm_new (code : list instr * list value) : vm :=
  vm_new_with_globals code (replicate GLOBALS_SIZE Null).

Definition with_stack (st : list value) (m : vm) : vm :=
  {| m_code := m_code m; m_constants := m_constants m;
     m_globals := m_globals m; m_stack := st;
     m_last_popped := m_last_popped m |}.

(** Integers wrap at 64 bits, two's complement. *)
Definition wrap64 (z : Z) : Z := ((z + 2 ^ 63) mod 2 ^ 64 - 2 ^ 63)%Z.

(** Error 1: type mismatch; error 2: the stack is empty. *)
Definition exec (op : instr) (m : vm) : Z * vm :=
  match op, m_stack m with
  | OpConstant k, st =>
      (0%Z, with_stack (default Null (m_constants m !! k) :: st) m)
  | OpGetGlobal i, st =>
      (0%Z, with_stack (default Null (m_globals m !! i) :: st) m)
  | OpSetGlobal i, v :: st =>
      (0%Z, {| m_code := m_code m; m_constants := m_constants m;
               m_globals := <[i := v]> (m_globals m); m_stack := st;
               m_last_popped := m_last_popped m |})
  | OpAdd, Integer b :: Integer a :: st =>
      (0%Z, with_stack (Integer (wrap64 (a + b)) :: st) m)
  | OpAdd, _ :: _ :: _ => (1%Z, m)
  | OpPop, v :: st =>
      (0%Z, {| m_code := m_code m; m_constants := m_constants m;
               m_globals := m_globals m; m_stack := st;
               m_last_popped := v |})
  | _, _ => (2%Z, m)
  end.

Fixpoint run (code : list instr) (m : vm) : Z * vm :=
  match code with
  | [] => (0%Z, m)
  | op :: code' =>
      let '(err, m) := exec op m in
      if negb (err =? 0)%Z then (err, m) else run code' m
  end.

Definition vm_run (m : vm) : Z * vm := run (m_code m) m.

Definition compiler_new : compiler :=
  {| c_symbols := SymbolTable.symbol_table_new; c_constants := [];
     c_code := [] |}.

Definition compiler_new_with_state (t : SymbolTable.symbol_table)
    (constants : list value) : compiler :=
  {| c_symbols := t; c_constants := constants; c_code := [] |}.

Definition get_bytecode (c : compiler) : list instr * list value :=
  (c_code c, c_constants c).

Definition compiler_error_str (err : Z) : string :=
  if (err =? 1)%Z then "unknown identifier" else "compile error".

Definition interpreter : Interpreter :=
  Build_Interpreter
    (list stmt) parser compiler (list instr * list value) vm value
    SymbolTable.symbol_table (list value)
    new_parser parse_program p_errors (fun _ _ => "syntax error")
    SymbolTable.symbol_table_new (fun _ => []) value_type
    compiler_new compiler_new_with_state compile_program compiler_error_str
    get_bytecode c_symbols c_constants
    GLOBALS_SIZE vm_new vm_new_with_globals vm_run m_last_popped m_globals.

(** The state with which [repl] enters its loop, with a cleared globals
    array. *)
Definition initial_state : @repl_state interpreter :=
  @ReplState interpreter SymbolTable.symbol_table_new []
             (replicate GLOBALS_SIZE Null).

(** Submissions to run the front end on. *)
Definition source (s : string) : list ascii := String.list_ascii_of_string s.

(** [let x = 7; 1 + "a";] *)
Definition redefine_then_fail : list ascii :=
  source "let x = 7; 1 + " ++ [DQUOTE; "a"%char; DQUOTE; ";"%char].

Definition session (k : nat) : option (list ascii) :=
  nth k [Some (source "let x = 5;"); Some (source "x;");
         Some redefine_then_fail; Some (source "x;")] None.

Definition files (filename : string) : option (list ascii) :=
  if bool_decide (filename = "sum.pep")
  then Some (source "let x = 5; x + 1;")
  else None.

End Sample.

(** * More of the lexers and of the front end *)

(** ** Vocabulary for string literals *)

(** The characters [body], which come after the character [prev], keep the
    string loop of [gettoken] going: none of them is the terminator, and
    every quote among them comes right after a backslash. *)
Fixpoint inside_string (prev : ascii) (body : list ascii) : bool :=
  match body with
  | [] => true
  | c :: body' =>
      negb (Ascii.eqb c NUL)
      && (negb (Ascii.eqb c DQUOTE) || Ascii.eqb prev BACKSLASH)
      && inside_string c body'
  end.

(** The last character of [prev :: body]. *)
Definition last_char (prev : ascii) (body : list ascii) : ascii :=
  List.last body prev.

(** ** The second lexer of [lex.c]: [next_tok] *)

(** [next_tok] works on the types [Lex] and [Tok] of [lex.h], which is not
    among the sources.  The records below have the fields that the
    function uses ([in], [pos], [text_pos.line], [text_pos.column];
    [type], [text_pos], [literal.str]), and [tok_type] has the constants
    that it names.  Line and column are natural numbers, and [type] is
    taken to be the first member of [Tok], the one that the initialiser of
    [tok] sets to [TOK_ILLEGAL]. *)
Module NextTok.

Inductive tok_type : Set :=
| TOK_ILLEGAL | TOK_COMMA | TOK_SEMICOLON | TOK_LPAREN | TOK_RPAREN
| TOK_LBRACKET | TOK_RBRACKET | TOK_LBRACE | TOK_RBRACE | TOK_SUM | TOK_SUB
| TOK_MUL | TOK_DIV | TOK_MOD | TOK_EQ | TOK_ASSIGN | TOK_NEQ | TOK_NOT
| TOK_GTEQ | TOK_GT | TOK_LTEQ | TOK_LT | TOK_AND | TOK_OR | TOK_EOF
| TOK_STR.

Record TextPos : Type := { line : nat; column : nat }.

Record Lex : Type := {
  in_ : list ascii;
  pos : nat;
  text_pos : TextPos;
}.

(** [literal_str] is [tok.literal.str]: [None] is the null pointer that the
    initialiser of [tok] leaves, [Some buf] a block that holds [buf]. *)
Record Tok : Type := {
  type : tok_type;
  tok_text_pos : TextPos;
  literal_str : option (list ascii);
}.

Definition set_type (ty : tok_type) (tok : Tok) : Tok :=
  {| type := ty; tok_text_pos := tok_text_pos tok;
     literal_str := literal_str tok |}.

(** [lex->text_pos.column++; return lex->in[lex->pos++];] *)
Definition next_ch (lex : Lex) : ascii * Lex :=
  (char_at (in_ lex) (pos lex),
   {| in_ := in_ lex; pos := S (pos lex);
      text_pos := {| line := line (text_pos lex);
                     column := S (column (text_pos lex)) |} |}).

(** [lex->in[lex->pos] == ch ? next_ch(lex) : false]: the character that
    [next_ch] returns is converted to [bool]. *)
Definition next_if (lex : Lex) (ch : ascii) : bool * Lex :=
  if Ascii.eqb (char_at (in_ lex) (pos lex)) ch
  then let '(c, lex') := next_ch lex in (negb (Ascii.eqb c NUL), lex')
  else (false, lex).

Definition check_line_advance (lex : Lex) (ch : ascii) : Lex :=
  if Ascii.eqb ch NEWLINE
  then {| in_ := in_ lex; pos := pos lex;
          text_pos := {| line := S (line (text_pos lex)); column := 0 |} |}
  else lex.

Definition loop_fuel (lex : Lex) : nat := S (length (in_ lex)).

(** [while (isspace(ch)) { check_line_advance(lex, ch); ch = next_ch(lex); }] *)
Fixpoint skip_space (fuel : nat) (lex : Lex) (ch : ascii)
  : result (Lex * ascii) :=
  if isspace ch then
    match fuel with
    | 0 => OutOfFuel
    | S fuel' =>
        let '(ch', lex') := next_ch (check_line_advance lex ch) in
        skip_space fuel' lex' ch'
    end
  else Ok (lex, ch).

(** The loop of the string case,
    [do { ch = next_ch(lex); check_line_advance(lex, ch); } while (...)],
    which runs up to the next quote or the terminator. *)
Fixpoint read_str (fuel : nat) (lex : Lex) : result (Lex * ascii) :=
  match fuel with
  | 0 => OutOfFuel
  | S fuel' =>
      let '(ch, lex) := next_ch lex in
      let lex := check_line_advance lex ch in
      if negb (Ascii.eqb ch DQUOTE) && negb (Ascii.eqb ch NUL)
      then read_str fuel' lex
      else Ok (lex, ch)
  end.

(** [strncpy(dest, src, n)] into a block of [n] bytes: the characters of
    the string [src], at most [n] of them, then NUL up to [n] bytes. *)
Definition strncpy (n : nat) (src : list ascii) : list ascii :=
  take n (c_string src ++ replicate n NUL).

(** [str = strncpy(malloc(size), lex->in + start, size); str[size - 1] = 0;]
    The store is checked against the block. *)
Definition copy_literal (lex : Lex) (start : nat) : result (list ascii) :=
  let size := pos lex - start in
  let str := strncpy size (drop start (in_ lex)) in
  if size - 1 <? size then Ok (<[size - 1 := NUL]> str) else BufferOverflow.

(** The initialiser of [tok] and the [switch] of [next_tok]. *)
Definition tok_switch (ch : ascii) (lex : Lex) : result (Tok * Lex) :=
  let tok := {| type := TOK_ILLEGAL; tok_text_pos := text_pos lex;
                literal_str := None |} in
  match ch with
  | ","%char => Ok (set_type TOK_COMMA tok, lex)
  | ";"%char => Ok (set_type TOK_SEMICOLON tok, lex)
  | "("%char => Ok (set_type TOK_LPAREN tok, lex)
  | ")"%char => Ok (set_type TOK_RPAREN tok, lex)
  | "["%char => Ok (set_type TOK_LBRACKET tok, lex)
  | "]"%char => Ok (set_type TOK_RBRACKET tok, lex)
  | "{"%char => Ok (set_type TOK_LBRACE tok, lex)
  | "}"%char => Ok (set_type TOK_RBRACE tok, lex)
  | "+"%char => Ok (set_type TOK_SUM tok, lex)
  | "-"%char => Ok (set_type TOK_SUB tok, lex)
  | "*"%char => Ok (set_type TOK_MUL tok, lex)
  | "/"%char => Ok (set_type TOK_DIV tok, lex)
  | "%"%char => Ok (set_type TOK_MOD tok, lex)
  | "="%char =>
      let '(b, lex) := next_if lex "=" in
      Ok (set_type (if b then TOK_EQ else TOK_ASSIGN) tok, lex)
  | "!"%char =>
      let '(b, lex) := next_if lex "=" in
      Ok (set_type (if b then TOK_NEQ else TOK_NOT) tok, lex)
  | ">"%char =>
      let '(b, lex) := next_if lex "=" in
      Ok (set_type (if b then TOK_GTEQ else TOK_GT) tok, lex)
  | "<"%char =>
      let '(b, lex) := next_if lex "=" in
      Ok (set_type (if b then TOK_LTEQ else TOK_LT) tok, lex)
  | "&"%char =>
      let '(b, lex) := next_if lex "&" in
      Ok (set_type (if b then TOK_AND else TOK_ILLEGAL) tok, lex)
  | "|"%char =>
      let '(b, lex) := next_if lex "|" in
      Ok (set_type (if b then TOK_OR else TOK_ILLEGAL) tok, lex)
  | "000"%char => Ok (set_type TOK_EOF tok, lex)
  | "034"%char =>
      let start := pos lex in
      let* (lex, ch) := read_str (loop_fuel lex) lex in
      if Ascii.eqb ch NUL then Ok (set_type TOK_ILLEGAL tok, lex)
      else
        let* str := copy_literal lex start in
        Ok ({| type := TOK_STR; tok_text_pos := tok_text_pos tok;
               literal_str := Some str |}, lex)
  | _ => Ok (tok, lex)
  end.

(** [next_tok(lex)]: the token returned and the lexer as the call leaves
    it. *)
Definition next_tok (lex : Lex) : result (Tok * Lex) :=
  let '(ch, lex) := next_ch lex in
  let* (lex, ch) := skip_space (loop_fuel lex) lex ch in
  tok_switch ch lex.

(** The lexer once one more character [c] has been read. *)
Definition after_char (lex : Lex) (c : ascii) : Lex :=
  check_line_advance (snd (next_ch lex)) c.

(** The lexer once the characters [cs] have been read. *)
Definition after_chars (cs : list ascii) (lex : Lex) : Lex :=
  foldl after_char lex cs.

End NextTok.

(** ** Vocabulary for the output of the REPL *)

(** The event that prints the prompt: [printf] of the prompt's text with no
    argument. *)
Definition is_prompt {object : Type} (e : out_event object) : bool :=
  match e with
  | Printf fmt [] => String.eqb fmt ">> "
  | _ => false
  end.

(** How many prompts an output holds. *)
Definition prompts {object : Type} (out : list (out_event object)) : nat :=
  length (List.filter is_prompt out).

(** ** Facts about characters and buffers *)

Lemma char_at_lt (s : list ascii) (i : nat) :
  char_at s i <> NUL -> i < length s.
Proof.
  intros H. destruct (decide (i < length s)) as [|Hge]; [done|].
  exfalso. apply H. unfold char_at. apply nth_overflow. lia.
Qed.

Lemma char_at_drop (s : list ascii) (n j : nat) :
  char_at (drop n s) j = char_at s (n + j).
Proof.
  unfold char_at. revert n. induction s as [|c s IH]; intros [|n]; simpl; auto.
  by destruct j.
Qed.

Lemma drop_cons_inv (s : list ascii) (n : nat) (c : ascii) (cs : list ascii) :
  drop n s = c :: cs -> char_at s n = c /\ drop (S n) s = cs.
Proof.
  intros H. split.
  - replace n with (n + 0) by lia. rewrite <- char_at_drop, H. done.
  - replace (S n) with (n + 1) by lia. rewrite <- drop_drop, H. done.
Qed.

Lemma isspace_nonnul (ch : ascii) : isspace ch = true -> ch <> NUL.
Proof. intros H ->. discriminate H. Qed.

Lemma is_letter_nonnul (ch : ascii) : is_letter ch = true -> ch <> NUL.
Proof. intros H ->. discriminate H. Qed.

Lemma isdigit_nonnul (ch : ascii) : isdigit ch = true -> ch <> NUL.
Proof. intros H ->. discriminate H. Qed.

Lemma c_string_le (buf : list ascii) (i : nat) :
  buf !! i = Some NUL -> length (c_string buf) <= i.
Proof.
  revert i. induction buf as [|c buf IH]; intros i H; simpl; [lia|].
  destruct i as [|i]; simpl in H.
  - injection H as ->. simpl. lia.
  - destruct (Ascii.eqb c NUL); simpl; [lia|]. specialize (IH i H). lia.
Qed.

Lemma c_string_app_nul (cs tail : list ascii) :
  Forall (fun c => c <> NUL) cs ->
  c_string (cs ++ NUL :: tail) = cs.
Proof.
  induction 1 as [|c cs Hc _ IH]; simpl; [done|].
  destruct (Ascii.eqb_spec c NUL) as [->|_]; [done|]. by rewrite IH.
Qed.

(** ** The loops return *)

Lemma skip_whitespace_ok (fuel : nat) (l : lexer) (ch : ascii) :
  (isspace ch = true -> pos l <= length (input l)) ->
  length (input l) < fuel + pos l ->
  exists l' ch',
    skip_whitespace fuel l ch = Ok (l', ch')
    /\ input l' = input l /\ pos l <= pos l'.
Proof.
  revert l ch. induction fuel as [|fuel IH]; intros l ch Hch Hfuel; simpl.
  - destruct (isspace ch); [specialize (Hch eq_refl); lia|]. eauto.
  - destruct (isspace ch) eqn:Hsp; [|eauto].
    set (l1 := line_advance ch l).
    assert (Hin : input l1 = input l /\ pos l1 = pos l).
    { unfold l1, line_advance. by destruct (Ascii.eqb ch NEWLINE). }
    destruct Hin as [Hin Hpos].
    destruct (IH (snd (next_char l1)) (char_at (input l1) (pos l1)))
      as (l' & ch' & Heq & Hin' & Hpos'); simpl.
    + intros Hsp'. apply isspace_nonnul, char_at_lt in Hsp'. lia.
    + rewrite Hin, Hpos. lia.
    + exists l', ch'. simpl in *. split; [exact Heq|]. split; [congruence|lia].
Qed.

Lemma skip_comment_ok (fuel : nat) (l : lexer) :
  length (input l) <= fuel + pos l ->
  exists l', skip_comment fuel l = Ok l'
    /\ input l' = input l /\ pos l <= pos l'.
Proof.
  revert l. induction fuel as [|fuel IH]; intros l Hfuel; simpl.
  - destruct (Ascii.eqb_spec (char_at (input l) (pos l)) NUL) as [E|E].
    + rewrite andb_false_r. eauto.
    + apply char_at_lt in E. lia.
  - destruct (negb _ && negb _); [|eauto].
    destruct (IH (advance l)) as (l' & Heq & Hin & Hpos); simpl; [lia|].
    exists l'. simpl in *. split; [exact Heq|]. split; [done|lia].
Qed.

Lemma read_string_ok (fuel : nat) (l : lexer) :
  1 <= fuel -> length (input l) < fuel + pos l ->
  exists l', read_string fuel l = Ok l'
    /\ input l' = input l /\ pos l <= pos l'.
Proof.
  revert l. induction fuel as [|fuel IH]; intros l H1 Hfuel; [lia|]. simpl.
  destruct (Ascii.eqb_spec (char_at (input l) (pos l)) NUL) as [E|E]; simpl.
  { eexists. split; [reflexivity|]. simpl. split; [done|lia]. }
  destruct (_ && _).
  { eexists. split; [reflexivity|]. simpl. split; [done|lia]. }
  apply char_at_lt in E.
  destruct (IH (snd (next_char l))) as (l' & Heq & Hin & Hpos); simpl; [lia..|].
  exists l'. simpl in *. split; [exact Heq|]. split; [done|lia].
Qed.

Lemma literal_write_ok (i : nat) (c : ascii) (t : token) :
  i < length (literal t) ->
  literal_write i c t = Ok (set_literal (<[i := c]> (literal t)) t).
Proof.
  intros H. unfold literal_write.
  destruct (Nat.ltb_spec i (length (literal t))); [done|lia].
Qed.

Lemma write_run_length (seg : list ascii) (i : nat) (lit : list ascii) :
  length (write_run i seg lit) = length lit.
Proof.
  revert i lit. induction seg as [|c seg IH]; intros i lit; simpl; [done|].
  by rewrite IH, length_insert.
Qed.

Lemma write_run_blank (seg : list ascii) (front : list ascii) (k : nat) :
  length seg <= k ->
  write_run (length front) seg (front ++ replicate k NUL)
  = front ++ seg ++ replicate (k - length seg) NUL.
Proof.
  revert front k. induction seg as [|c seg IH]; intros front k Hk; simpl.
  - by rewrite Nat.sub_0_r.
  - destruct k as [|k]; [simpl in Hk; lia|]. simpl in Hk.
    rewrite insert_app_r_alt by lia. rewrite Nat.sub_diag. simpl.
    replace (front ++ c :: replicate k NUL)
      with ((front ++ [c]) ++ replicate k NUL) by (by rewrite <- app_assoc).
    replace (S (length front)) with (length (front ++ [c]))
      by (rewrite length_app; simpl; lia).
    rewrite IH by lia. by rewrite <- app_assoc.
Qed.

Lemma advance_by_0 (l : lexer) : advance_by 0 l = l.
Proof. destruct l. unfold advance_by. simpl. f_equal; lia. Qed.

Lemma set_literal_id (t : token) : set_literal (literal t) t = t.
Proof. by destruct t. Qed.

Section ReadRun.

Variable MAX_IDENT_LENGTH : nat.
Variable cond : ascii -> bool.
Hypothesis cond_nul : cond NUL = false.

Lemma cond_nonnul (ch : ascii) : cond ch = true -> ch <> NUL.
Proof. intros H ->. congruence. Qed.

(** The loop returns, stores inside the buffer and leaves [i] within the
    limit. *)
Lemma read_run_ok (fuel : nat) (l : lexer) (t : token) (ch : ascii) (i : nat) :
  (cond ch = true -> 1 <= fuel /\ length (input l) < fuel + pos l) ->
  MAX_IDENT_LENGTH <= LITERAL_SIZE ->
  length (literal t) = LITERAL_SIZE ->
  i <= MAX_IDENT_LENGTH - 1 ->
  exists l' t' i',
    read_run MAX_IDENT_LENGTH cond fuel l t ch i = Ok (l', t', i')
    /\ input l' = input l /\ pos l <= pos l'
    /\ length (literal t') = LITERAL_SIZE
    /\ i' <= MAX_IDENT_LENGTH - 1.
Proof.
  intros Hfuel Hmax. revert l t ch i Hfuel.
  induction fuel as [|fuel IH]; intros l t ch i Hfuel Hlen Hi; simpl.
  - destruct (cond ch); [specialize (Hfuel eq_refl); lia|].
    simpl. eauto 10.
  - destruct (cond ch) eqn:Hc; simpl; [|eauto 10].
    destruct (Nat.ltb_spec i (MAX_IDENT_LENGTH - 1)) as [Hlt|_]; [|eauto 10].
    rewrite literal_write_ok by lia. simpl.
    destruct (Hfuel eq_refl) as [_ Hf].
    edestruct (IH (snd (next_char l)) (set_literal (<[i:=ch]> (literal t)) t)
                 (char_at (input l) (pos l)) (S i))
      as (l' & t' & i' & Heq & Hin & Hpos & Hlen' & Hi'); simpl.
    + intros Hc'. apply cond_nonnul, char_at_lt in Hc'. lia.
    + by rewrite length_insert.
    + lia.
    + exists l', t', i'. simpl in *. repeat split; auto. lia.
Qed.

(** The loop over a segment whose characters all pass the condition and
    fit under the limit. *)
Lemma read_run_segment (seg rest : list ascii) (fuel : nat)
    (l : lexer) (t : token) (i : nat) :
  Forall (fun c => cond c = true) seg ->
  drop (pos l) (input l) = seg ++ rest ->
  i + length seg <= MAX_IDENT_LENGTH - 1 ->
  i + length seg <= length (literal t) ->
  length seg <= fuel ->
  read_run MAX_IDENT_LENGTH cond fuel (advance l) t (char_at (input l) (pos l)) i
  = read_run MAX_IDENT_LENGTH cond (fuel - length seg)
      (advance (advance_by (length seg) l))
      (set_literal (write_run i seg (literal t)) t)
      (char_at (input l) (pos l + length seg)) (i + length seg).
Proof.
  intros Hseg. revert fuel l t i.
  induction Hseg as [|c seg Hc Hseg IH]; intros fuel l t i Hdrop Hi Hlit Hfuel.
  - simpl. by rewrite Nat.sub_0_r, !Nat.add_0_r, advance_by_0, set_literal_id.
  - simpl in *. apply drop_cons_inv in Hdrop as [Hch Hdrop].
    destruct fuel as [|fuel]; [lia|]. simpl.
    rewrite Hch, Hc. simpl.
    destruct (Nat.ltb_spec i (MAX_IDENT_LENGTH - 1)) as [_|Hge]; [|lia].
    rewrite literal_write_ok by lia. simpl.
    specialize (IH fuel (advance l)
                  (set_literal (<[i:=c]> (literal t)) t) (S i)).
    simpl in IH.
    etrans; [apply IH; [done|lia|rewrite length_insert; lia|lia]|].
    f_equal; try lia; try (by destruct t); try (f_equal; lia).
    unfold advance, advance_by. simpl. f_equal; lia.
Qed.

End ReadRun.

(** ** The switch and the recursion *)

Lemma literal_get_ident (t : token) : literal (get_ident t) = literal t.
Proof. unfold get_ident. repeat case_match; reflexivity. Qed.

Lemma is_word_get_ident (t : token) : is_word_token (type (get_ident t)) = true.
Proof. unfold get_ident. repeat case_match; reflexivity. Qed.

Lemma strcpy_from_ok (s : list ascii) (i : nat) (t : token) :
  i + length s < length (literal t) ->
  exists t', strcpy_from i s t = Ok t'
    /\ length (literal t') = length (literal t) /\ type t' = type t.
Proof.
  revert i t. induction s as [|c s IH]; intros i t Hi; simpl in *.
  - rewrite literal_write_ok by lia. eexists. split; [done|].
    simpl. by rewrite length_insert.
  - rewrite literal_write_ok by lia. simpl.
    destruct (IH (S i) (set_literal (<[i:=c]> (literal t)) t))
      as (t' & Heq & Hlen & Hty); simpl.
    { rewrite length_insert. lia. }
    exists t'. simpl in *. rewrite length_insert in Hlen. done.
Qed.

Section Switch.

Variable MAX_IDENT_LENGTH : nat.

Lemma lex_switch_letter rec ch l t :
  is_letter ch = true ->
  lex_switch MAX_IDENT_LENGTH rec ch l t
  = let* (l', t, i) :=
      read_run MAX_IDENT_LENGTH (fun c => is_letter c || isdigit c)
               (loop_fuel l) l t ch 0 in
    let* t := literal_write i NUL t in
    Ok (unread l', get_ident t).
Proof.
  intros H.
  destruct ch as [[] [] [] [] [] [] [] []]; vm_compute in H;
    try discriminate H; reflexivity.
Qed.

Lemma lex_switch_digit rec ch l t :
  isdigit ch = true ->
  lex_switch MAX_IDENT_LENGTH rec ch l t
  = let* (l', t, i) :=
      read_run MAX_IDENT_LENGTH isdigit (loop_fuel l) l t ch 0 in
    let* t := literal_write i NUL t in
    Ok (unread l', set_type TOKEN_INT t).
Proof.
  intros H.
  destruct ch as [[] [] [] [] [] [] [] []]; vm_compute in H;
    try discriminate H; reflexivity.
Qed.



Hypothesis max_fits : MAX_IDENT_LENGTH <= LITERAL_SIZE.

Lemma bounded_char_token l ty c t :
  length (literal t) = LITERAL_SIZE -> is_word_token ty = false ->
  literal_bounded MAX_IDENT_LENGTH (let* t' := char_token ty c t in Ok (l, t')).
Proof.
  intros Hlen Hty. unfold char_token, LITERAL_SIZE in *.
  rewrite literal_write_ok by (simpl; lia). simpl.
  rewrite literal_write_ok by (simpl; rewrite length_insert; lia). simpl.
  eexists _, _. split; [done|]. simpl. rewrite !length_insert.
  split; [done|]. congruence.
Qed.

Lemma bounded_strcpy l ty (s : string) t :
  length (literal t) = LITERAL_SIZE -> is_word_token ty = false ->
  length (String.list_ascii_of_string s) < LITERAL_SIZE ->
  literal_bounded MAX_IDENT_LENGTH
    (let* t' := strcpy_literal s (set_type ty t) in Ok (l, t')).
Proof.
  intros Hlen Hty Hs. unfold strcpy_literal.
  destruct (strcpy_from_ok (String.list_ascii_of_string s) 0 (set_type ty t))
    as (t' & -> & Hlen' & Hty').
  { simpl. lia. }
  simpl in *. eexists _, _. split; [done|]. split; [congruence|]. congruence.
Qed.

Lemma bounded_blank l t :
  literal t = replicate LITERAL_SIZE NUL ->
  literal_bounded MAX_IDENT_LENGTH (Ok (l, t)).
Proof.
  intros Hlit. eexists _, _. split; [done|]. rewrite Hlit.
  split; [done|]. intros _. simpl. lia.
Qed.

Lemma bounded_word l t i (f : token -> token) :
  (forall t', literal (f t') = literal t') ->
  length (literal t) = LITERAL_SIZE -> i <= MAX_IDENT_LENGTH - 1 ->
  literal_bounded MAX_IDENT_LENGTH
    (let* t' := literal_write i NUL t in Ok (l, f t')).
Proof.
  intros Hf Hlen Hi. unfold LITERAL_SIZE in *.
  assert (Hnul : <[i:=NUL]> (literal t) !! i = Some NUL)
    by (apply list_lookup_insert_eq; lia).
  rewrite literal_write_ok by lia. simpl.
  eexists _, _. split; [done|]. rewrite Hf. simpl. rewrite length_insert.
  split; [done|]. intros _. pose proof (c_string_le _ _ Hnul). lia.
Qed.

Lemma lex_switch_ok rec ch l t :
  literal t = replicate LITERAL_SIZE NUL ->
  (forall l2, input l2 = input l -> pos l <= pos l2 ->
     char_at (input l) (pos l) = "/"%char ->
     literal_bounded MAX_IDENT_LENGTH (rec l2 t)) ->
  literal_bounded MAX_IDENT_LENGTH (lex_switch MAX_IDENT_LENGTH rec ch l t).
Proof.
  intros Hlit Hrec.
  assert (Hlen : length (literal t) = LITERAL_SIZE) by (by rewrite Hlit).
  destruct (is_letter ch) eqn:Hl.
  { rewrite lex_switch_letter by done.
    destruct (read_run_ok MAX_IDENT_LENGTH (fun c => is_letter c || isdigit c)
                eq_refl (loop_fuel l) l t ch 0)
      as (l' & t' & i' & -> & _ & _ & Hlen' & Hi');
      [unfold loop_fuel; lia|done|done|lia|].
    cbn [bind]. by apply bounded_word; [apply literal_get_ident| |]. }
  destruct (isdigit ch) eqn:Hd.
  { rewrite lex_switch_digit by done.
    destruct (read_run_ok MAX_IDENT_LENGTH isdigit eq_refl (loop_fuel l) l t ch 0)
      as (l' & t' & i' & -> & _ & _ & Hlen' & Hi');
      [unfold loop_fuel; lia|done|done|lia|].
    cbn [bind]. by apply bounded_word. }
  destruct ch as [[] [] [] [] [] [] [] []]; vm_compute in Hl, Hd;
    try discriminate Hl; try discriminate Hd; clear Hl Hd;
    unfold lex_switch; cbv beta iota zeta;
    try (destruct (Ascii.eqb _ _) eqn:E);
    first
      [ by apply bounded_char_token
      | by apply bounded_strcpy; [| |simpl; unfold LITERAL_SIZE; lia]
      | by apply bounded_blank
      | idtac ].
  - (* the comment *)
    apply Ascii.eqb_eq in E.
    destruct (skip_comment_ok (loop_fuel l) l) as (l' & -> & Hin & Hpos);
      [unfold loop_fuel; lia|].
    simpl. by apply Hrec.
  - (* the string *)
    destruct (read_string_ok (loop_fuel l) l) as (l' & -> & _);
      [unfold loop_fuel; lia..|].
    simpl. eexists _, _. split; [done|]. simpl. split; [done|]. discriminate.
  - (* the terminator *)
    unfold LITERAL_SIZE in *. rewrite literal_write_ok by (simpl; lia).
    simpl. eexists _, _. split; [done|]. simpl. rewrite length_insert.
    split; [done|]. discriminate.
Qed.

End Switch.

Section GettokenFacts.

Variable MAX_IDENT_LENGTH : nat.

Lemma gettoken_fuel_S (fuel : nat) (l : lexer) (t : token) :
  gettoken_fuel MAX_IDENT_LENGTH (S fuel) l t
  = let* (l1, ch) :=
      skip_whitespace (S (length (input l))) (advance l)
                      (char_at (input l) (pos l)) in
    lex_switch MAX_IDENT_LENGTH (gettoken_fuel MAX_IDENT_LENGTH fuel) ch l1
               (set_line_pos l1 (memset_literal t)).
Proof. reflexivity. Qed.



Hypothesis max_fits : MAX_IDENT_LENGTH <= LITERAL_SIZE.

Lemma gettoken_fuel_ok (fuel : nat) (l : lexer) (t : token) :
  1 <= fuel -> length (input l) < fuel + pos l ->
  literal_bounded MAX_IDENT_LENGTH (gettoken_fuel MAX_IDENT_LENGTH fuel l t).
Proof.
  revert l t. induction fuel as [|fuel IH]; intros l t H1 Hfuel; [lia|].
  rewrite gettoken_fuel_S.
  destruct (skip_whitespace_ok (S (length (input l))) (advance l)
              (char_at (input l) (pos l)))
    as (l1 & ch1 & -> & Hin & Hpos); simpl.
  { intros Hsp. apply isspace_nonnul, char_at_lt in Hsp. lia. }
  { lia. }
  simpl in Hin, Hpos. cbn [bind].
  apply lex_switch_ok; [done|done|].
  intros l2 Hin2 Hpos2 Hslash.
  assert (Hlt : pos l1 < length (input l1)).
  { apply char_at_lt. rewrite Hslash. discriminate. }
  apply IH; rewrite ?Hin2, ?Hin in *; lia.
Qed.

Lemma gettoken_ok (l : lexer) (t : token) :
  literal_bounded MAX_IDENT_LENGTH (gettoken MAX_IDENT_LENGTH l t).
Proof. apply gettoken_fuel_ok; unfold loop_fuel; lia. Qed.

End GettokenFacts.

(** ** The cursor over known text *)

Lemma after_char_input (l : lexer) (c : ascii) :
  input (after_char l c) = input l /\ pos (after_char l c) = S (pos l).
Proof.
  unfold after_char, line_advance. by destruct (Ascii.eqb c NEWLINE).
Qed.

Lemma after_chars_input (cs : list ascii) (l : lexer) :
  input (after_chars cs l) = input l
  /\ pos (after_chars cs l) = pos l + length cs.
Proof.
  unfold after_chars. revert l. induction cs as [|c cs IH]; intros l; simpl.
  - split; [done|lia].
  - destruct (IH (after_char l c)) as [-> ->].
    destruct (after_char_input l c) as [-> ->]. split; [done|lia].
Qed.




Lemma word_not_space (c : ascii) :
  is_letter c || isdigit c = true -> isspace c = false.
Proof.
  intros H.
  destruct c as [[] [] [] [] [] [] [] []]; vm_compute in H;
    try discriminate H; reflexivity.
Qed.

(** A run that reaches the limit: the loop stores the first
    [MAX_IDENT_LENGTH - 1] characters and the cursor is returned to the
    next one. *)
Lemma read_run_limit (MAX_IDENT_LENGTH : nat) (cond : ascii -> bool)
    (g : token -> token) (run rest : list ascii) (l : lexer) (t : token)
    (ch : ascii) :
  char_at (input l) (pos l) = ch ->
  cond NUL = false ->
  MAX_IDENT_LENGTH <= LITERAL_SIZE ->
  Forall (fun c => cond c = true) run ->
  MAX_IDENT_LENGTH - 1 < length run ->
  literal t = replicate LITERAL_SIZE NUL ->
  drop (pos l) (input l) = run ++ rest ->
  (let* (l', t, i) :=
     read_run MAX_IDENT_LENGTH cond (loop_fuel (advance l)) (advance l) t
              ch 0 in
   let* t := literal_write i NUL t in
   Ok (unread l', g t))
  = Ok (advance_by (MAX_IDENT_LENGTH - 1) l,
        g (set_literal
             (take (MAX_IDENT_LENGTH - 1) run
              ++ replicate (LITERAL_SIZE - (MAX_IDENT_LENGTH - 1)) NUL) t)).
Proof.
  intros <- Hnul Hmax Hrun Hlong Hlit Hdrop.
  set (n := MAX_IDENT_LENGTH - 1) in *.
  assert (Hn : length (take n run) = n) by (rewrite length_take; lia).
  assert (Hlen : length (input l) >= pos l + length run).
  { apply (f_equal length) in Hdrop.
    rewrite length_drop, length_app in Hdrop. lia. }
  rewrite (read_run_segment MAX_IDENT_LENGTH cond (take n run)
             (drop n run ++ rest)); rewrite ?Hn.
  - replace (read_run _ _ _ _ _ _ _)
      with (Ok (A := lexer * token * nat)
              (advance (advance_by n l),
               set_literal (write_run 0 (take n run) (literal t)) t, n)).
    2:{ symmetry. replace (0 + n) with n by lia.
        destruct (loop_fuel (advance l) - n); simpl; fold n;
          rewrite Nat.ltb_irrefl, andb_false_r; reflexivity. }
    cbn [bind].
    rewrite Hlit. change (replicate LITERAL_SIZE NUL)
      with ([] ++ replicate LITERAL_SIZE NUL).
    change 0 with (length (@nil ascii)).
    rewrite write_run_blank by (rewrite Hn; unfold LITERAL_SIZE in *; lia).
    rewrite Hn. simpl app.
    rewrite literal_write_ok
      by (simpl; rewrite length_app, Hn, length_replicate;
          unfold LITERAL_SIZE in *; lia).
    cbn [bind]. do 3 f_equal.
    destruct t. unfold set_literal. simpl. f_equal.
    rewrite insert_app_r_alt by lia. rewrite Hn, Nat.sub_diag.
    f_equal. destruct (LITERAL_SIZE - n) eqn:E;
      [unfold LITERAL_SIZE in *; lia|done].
  - by apply Forall_take.
  - by rewrite app_assoc, take_drop.
  - lia.
  - rewrite Hlit, length_replicate. unfold LITERAL_SIZE in *. lia.
  - unfold loop_fuel. simpl. lia.
Qed.

(** ** The properties of [gettoken] *)



(** C10.  With [MAX_IDENT_LENGTH] no larger than the literal buffer,
    [gettoken] returns on every input with all its stores inside the 64
    bytes of the literal (the result is [Ok], never [BufferOverflow]), and
    the literal of every identifier, keyword or integer token has at most
    [MAX_IDENT_LENGTH - 1] characters.  A run of letters and digits that
    starts with a letter, or a run of digits, longer than that limit is
    split: the token holds its first [MAX_IDENT_LENGTH - 1] characters and
    the cursor is left on the first character that was not stored. *)
Theorem gettoken_literal_within_limit (MAX_IDENT_LENGTH : nat) :
  MAX_IDENT_LENGTH <= LITERAL_SIZE ->
  (forall (l : lexer) (t : token),
     exists l' t',
       gettoken MAX_IDENT_LENGTH l t = Ok (l', t')
       /\ length (literal t') = LITERAL_SIZE
       /\ (is_word_token (type t') = true ->
           length (c_string (literal t')) <= MAX_IDENT_LENGTH - 1))
  /\ (forall (pre run rest : list ascii) (lineno linepos : nat) (t : token),
        MAX_IDENT_LENGTH - 1 < length run ->
        (is_letter (char_at run 0) = true
         /\ Forall (fun c => is_letter c || isdigit c = true) run)
        \/ Forall (fun c => isdigit c = true) run ->
        let l := {| input := pre ++ run ++ rest; pos := length pre;
                    cur_lineno := lineno; cur_linepos := linepos |} in
        exists t',
          gettoken MAX_IDENT_LENGTH l t
          = Ok (advance_by (MAX_IDENT_LENGTH - 1) l, t')
          /\ c_string (literal t') = take (MAX_IDENT_LENGTH - 1) run
          /\ is_word_token (type t') = true).
Proof.
  intros Hmax. split.
  { intros l t. apply (gettoken_ok MAX_IDENT_LENGTH Hmax l t). }
  intros pre run rest lineno linepos t Hlong Hrun l.
  assert (Hdrop : drop (pos l) (input l) = run ++ rest)
    by (simpl; by rewrite drop_app_length).
  destruct run as [|c run']; [simpl in Hlong; lia|].
  change (char_at (c :: run') 0) with c in Hrun.
  assert (Hc : char_at (input l) (pos l) = c)
    by (apply (drop_cons_inv _ _ _ _ Hdrop)).
  assert (Hword : is_letter c || isdigit c = true).
  { destruct Hrun as [[Hl _]|Hd]; simpl in *.
    - by rewrite Hl.
    - inversion Hd; subst. rewrite orb_true_iff. by right. }
  assert (Hnul : Forall (fun c => c <> NUL) (take (MAX_IDENT_LENGTH - 1) (c :: run'))).
  { apply Forall_take. destruct Hrun as [[_ H]|H];
      (eapply Forall_impl; [exact H|]); intros x Hx ->; discriminate Hx. }
  unfold gettoken, loop_fuel. rewrite gettoken_fuel_S, Hc.
  replace (skip_whitespace _ _ _) with (Ok (advance l, c))
    by (simpl; by rewrite (word_not_space c Hword)).
  cbn [bind].
  set (t0 := set_line_pos (advance l) (memset_literal t)).
  assert (Hcstr : forall g, (forall x, literal (g x) = literal x) ->
            c_string (literal (g (set_literal
              (take (MAX_IDENT_LENGTH - 1) (c :: run')
               ++ replicate (LITERAL_SIZE - (MAX_IDENT_LENGTH - 1)) NUL) t0)))
            = take (MAX_IDENT_LENGTH - 1) (c :: run')).
  { intros g Hg. rewrite Hg. simpl literal.
    destruct (LITERAL_SIZE - (MAX_IDENT_LENGTH - 1)) eqn:E;
      [unfold LITERAL_SIZE in *; lia|].
    simpl replicate. by apply c_string_app_nul. }
  destruct (is_letter c) eqn:Hl.
  - rewrite lex_switch_letter by done.
    assert (Hall : Forall (fun c => is_letter c || isdigit c = true) (c :: run')).
    { destruct Hrun as [[_ H]|H]; [done|].
      eapply Forall_impl; [exact H|]. intros x Hx. simpl in Hx.
      rewrite Hx. apply orb_true_r. }
    rewrite (read_run_limit MAX_IDENT_LENGTH _ get_ident (c :: run') rest)
      by done.
    eexists. split; [reflexivity|]. split.
    + apply (Hcstr get_ident literal_get_ident).
    + apply is_word_get_ident.
  - simpl in Hword.
    assert (Hall : Forall (fun c => isdigit c = true) (c :: run')).
    { destruct Hrun as [[H _]|H]; [|done]. simpl in H. congruence. }
    rewrite lex_switch_digit by done.
    rewrite (read_run_limit MAX_IDENT_LENGTH _ (set_type TOKEN_INT)
               (c :: run') rest) by done.
    eexists. split; [reflexivity|]. split.
    + by apply (Hcstr (set_type TOKEN_INT)).
    + reflexivity.
Qed.

Lemma gettoken_literal_within_limit_witness :
  let run := replicate 70 "a"%char in
  let l := {| input := [" "%char] ++ run ++ ["+"%char]; pos := 1;
              cur_lineno := 1; cur_linepos := 1 |} in
  exists t',
    gettoken 64 l (Token TOKEN_ILLEGAL [] 0 0 0 0) = Ok (advance_by 63 l, t')
    /\ c_string (literal t') = take 63 run
    /\ is_word_token (type t') = true.
Proof.
  assert (Hmax : 64 <= LITERAL_SIZE) by (unfold LITERAL_SIZE; lia).
  apply (proj2 (gettoken_literal_within_limit 64 Hmax)
           [" "%char] (replicate 70 "a"%char) ["+"%char] 1 1
           (Token TOKEN_ILLEGAL [] 0 0 0 0)).
  - simpl. lia.
  - left. split; [reflexivity|]. apply Forall_forall.
    intros c Hc. apply elem_of_replicate in Hc as [-> _]. reflexivity.
Defined.

(** * The symbol table: captures through several scopes *)

Section Resolve.

Import SymbolTable.

Lemma resolve_found (n : string) (s : scope_table) (outer : symbol_table)
    (sym : symbol) :
  store s !! n = Some sym -> resolve n (s :: outer) = (Some sym, s :: outer).
Proof. intros H. simpl. by rewrite H. Qed.

Lemma resolve_global (n : string) (inner : list scope_table)
    (s_def : scope_table) (rest : symbol_table) (sym : symbol) :
  Forall (fun s => store s !! n = None) inner ->
  store s_def !! n = Some sym ->
  scope sym = ScopeGlobal \/ scope sym = ScopeBuiltin ->
  resolve n (inner ++ s_def :: rest) = (Some sym, inner ++ s_def :: rest).
Proof.
  intros Hinner Hdef Hscope.
  induction Hinner as [|s inner Hs _ IH]; simpl.
  - by rewrite Hdef.
  - rewrite Hs, IH. by destruct Hscope as [-> | ->].
Qed.

Lemma resolve_captured (n : string) (inner : list scope_table)
    (s_def : scope_table) (rest : symbol_table) (sym : symbol) :
  Forall (fun s => store s !! n = None) inner ->
  store s_def !! n = Some sym ->
  scope sym <> ScopeGlobal -> scope sym <> ScopeBuiltin ->
  exists inner',
    resolve n (inner ++ s_def :: rest)
    = (Some (match inner with
             | [] => sym
             | s :: _ => free_symbol sym s
             end),
       inner' ++ s_def :: rest)
    /\ length inner' = length inner
    /\ forall i s, inner !! i = Some s ->
         exists s', inner' !! i = Some s'
           /\ free_symbols s'
              = free_symbols s
                ++ [match inner !! S i with
                    | Some s_next => free_symbol sym s_next
                    | None => sym
                    end]
           /\ num_definitions s' = num_definitions s.
Proof.
  intros Hinner Hdef Hg Hb.
  induction Hinner as [|s inner Hs _ IH].
  - exists []. simpl. rewrite Hdef. split; [done|]. split; [done|].
    intros i s Hi. by rewrite lookup_nil in Hi.
  - destruct IH as (inner' & Hres & Hlen & Hfree).
    set (captured := match inner with
                     | [] => sym
                     | s1 :: _ => free_symbol sym s1
                     end) in *.
    assert (Hscope : scope captured <> ScopeGlobal
                     /\ scope captured <> ScopeBuiltin).
    { unfold captured. destruct inner; simpl; [done|]. split; discriminate. }
    assert (Hname : name captured = name sym)
      by (unfold captured; by destruct inner).
    exists (snd (scope_define_free captured s) :: inner').
    simpl. rewrite Hs. simpl in Hres. rewrite Hres.
    split; [|split].
    + destruct Hscope as [H1 H2].
      destruct (scope captured); try done;
        unfold free_symbol; simpl; by rewrite !length_app, Hname.
    + simpl. by rewrite Hlen.
    + intros [|i] s0 Hi; simpl in *.
      * injection Hi as <-. eexists. split; [done|]. split; [|done].
        simpl. f_equal. unfold captured. by destruct inner.
      * by apply Hfree.
Qed.

End Resolve.

(** C7.  When the scopes [inner], from the current one outwards, do not
    know the name and the enclosing scope [s_def] maps it to [sym],
    [resolve] returns [sym] unchanged and leaves the table as it is if [sym]
    is [Global] or [Builtin].  Otherwise it promotes the symbol with
    [define_free] in every scope of [inner]: each of them gets exactly one
    new entry at the end of its own [free_symbols], namely what resolving
    the name in the scope that encloses it returned (the [Free] symbol of
    the next scope, or [sym] itself for the scope next to [s_def]); the
    symbol returned is the [Free] symbol of the current scope, and the
    scopes from [s_def] outwards are untouched.  This holds for any number
    of scopes in between, more than one included. *)
Theorem resolve_promotes_through_every_scope (n : string)
    (s0 : SymbolTable.scope_table) (inner : list SymbolTable.scope_table)
    (s_def : SymbolTable.scope_table) (rest : SymbolTable.symbol_table)
    (sym : SymbolTable.symbol) :
  Forall (fun s => SymbolTable.store s !! n = None) (s0 :: inner) ->
  SymbolTable.store s_def !! n = Some sym ->
  let t := (s0 :: inner) ++ s_def :: rest in
  (SymbolTable.scope sym = SymbolTable.ScopeGlobal
   \/ SymbolTable.scope sym = SymbolTable.ScopeBuiltin ->
   SymbolTable.resolve n t = (Some sym, t))
  /\ (SymbolTable.scope sym <> SymbolTable.ScopeGlobal ->
      SymbolTable.scope sym <> SymbolTable.ScopeBuiltin ->
      exists inner',
        SymbolTable.resolve n t
        = (Some {| SymbolTable.name := SymbolTable.name sym;
                   SymbolTable.scope := SymbolTable.ScopeFree;
                   SymbolTable.index := length (SymbolTable.free_symbols s0) |},
           inner' ++ s_def :: rest)
        /\ length inner' = length (s0 :: inner)
        /\ forall i s, (s0 :: inner) !! i = Some s ->
             exists s', inner' !! i = Some s'
               /\ SymbolTable.free_symbols s'
                  = SymbolTable.free_symbols s
                    ++ [match (s0 :: inner) !! S i with
                        | Some s_next => SymbolTable.free_symbol sym s_next
                        | None => sym
                        end]
               /\ SymbolTable.num_definitions s'
                  = SymbolTable.num_definitions s).
Proof.
  intros Hinner Hdef t. split.
  - intros Hscope. by apply resolve_global.
  - intros Hg Hb.
    destruct (resolve_captured n (s0 :: inner) s_def rest sym Hinner Hdef Hg Hb)
      as (inner' & Hres & Hlen & Hfree).
    exists inner'. split; [|done].
    unfold t. rewrite Hres. do 2 f_equal.
    unfold SymbolTable.free_symbol. f_equal.
    rewrite length_app. simpl. lia.
Qed.

Lemma resolve_promotes_through_every_scope_witness :
  let x := SymbolTable.Symbol "x" SymbolTable.ScopeLocal 0 in
  let s_def := SymbolTable.ScopeTable {["x" := x]} 1 [] in
  let t := [SymbolTable.empty_scope; SymbolTable.empty_scope; s_def;
            SymbolTable.empty_scope] in
  exists inner',
    SymbolTable.resolve "x" t
    = (Some (SymbolTable.Symbol "x" SymbolTable.ScopeFree 0),
       inner' ++ [s_def; SymbolTable.empty_scope])
    /\ length inner' = 2
    /\ forall i s,
         [SymbolTable.empty_scope; SymbolTable.empty_scope] !! i = Some s ->
         exists s', inner' !! i = Some s'
           /\ SymbolTable.free_symbols s'
              = SymbolTable.free_symbols s
                ++ [match [SymbolTable.empty_scope; SymbolTable.empty_scope]
                            !! S i with
                    | Some s_next => SymbolTable.free_symbol x s_next
                    | None => x
                    end]
           /\ SymbolTable.num_definitions s' = SymbolTable.num_definitions s.
Proof.
  apply (proj2 (resolve_promotes_through_every_scope "x"
                  SymbolTable.empty_scope [SymbolTable.empty_scope]
                  (SymbolTable.ScopeTable
                     {["x" := SymbolTable.Symbol "x" SymbolTable.ScopeLocal 0]}
                     1 [])
                  [SymbolTable.empty_scope]
                  (SymbolTable.Symbol "x" SymbolTable.ScopeLocal 0)
                  ltac:(repeat constructor) ltac:(reflexivity))).
  - discriminate.
  - discriminate.
Defined.

(** * The front end *)

Section FrontEndFacts.

Context {I : Interpreter}.

Variable BUFSIZ : nat.
Variable indeterminate : nat -> ascii.

Abbreviation event := (out_event object).

(** ** The entry point *)

(** C4.  [main] enters the REPL when it is given no argument
    ([argc < 2]); when its first argument is [--version] it prints the
    version banner and returns 0; with any other first argument it runs
    that argument as a script file. *)
Theorem main_dispatch (fuel : nat) (stdin : nat -> option (list ascii))
    (globals : list object) (fs : string -> option (list ascii))
    (argv : list string) :
  (length argv < 2 ->
   main BUFSIZ indeterminate fuel stdin globals fs argv
   = repl fuel stdin globals)
  /\ (forall arg, argv !! 1 = Some arg -> arg = "--version" ->
      main BUFSIZ indeterminate fuel stdin globals fs argv
      = ([Printf "Pepper v%d.%d.%d\n" [ArgInt 0; ArgInt 0; ArgInt 1]], Ok 0%Z))
  /\ (forall arg, argv !! 1 = Some arg -> arg <> "--version" ->
      main BUFSIZ indeterminate fuel stdin globals fs argv
      = run_script BUFSIZ indeterminate fs arg).
Proof.
  unfold main. repeat split.
  - intros Hargc. by destruct (Nat.ltb_spec (length argv) 2); [|lia].
  - intros arg Harg ->.
    destruct argv as [|a0 [|a1 argv]]; simplify_eq/=. reflexivity.
  - intros arg Harg Hne.
    destruct argv as [|a0 [|a1 argv]]; simplify_eq/=.
    by rewrite bool_decide_eq_false_2.
Qed.

(** ** The script runner *)

Lemma read_file_unreadable (fs : string -> option (list ascii))
    (filename : string) :
  fs filename = None ->
  read_file (object := object) BUFSIZ indeterminate fs filename
  = ([Printf could_not_open [ArgStr filename]], Exit 1%Z).
Proof. intros H. unfold read_file. by rewrite H. Qed.

Lemma read_file_silent (fs : string -> option (list ascii))
    (filename : string) (input : list ascii) :
  snd (read_file (object := object) BUFSIZ indeterminate fs filename)
  = Ok input ->
  read_file (object := object) BUFSIZ indeterminate fs filename
  = ([], Ok input).
Proof.
  unfold read_file. destruct (fs filename); simpl; [|done]. by intros ->.
Qed.

(** C3.  In script mode the process ends with status 0 exactly when the
    run succeeds.  A file that cannot be opened ends the process with
    [exit(1)].  Otherwise [run_script] returns [EXIT_FAILURE] when the
    parser reports an error, when [compile_program] returns a non-zero
    code and when [vm_run] returns a non-zero code, and [EXIT_SUCCESS]
    when none of them does. *)
Theorem run_script_exit_code (fs : string -> option (list ascii))
    (filename : string) :
  (fs filename = None ->
   snd (run_script BUFSIZ indeterminate fs filename) = Exit 1%Z)
  /\ (forall input prog p cerr c verr m,
        snd (read_file (object := object) BUFSIZ indeterminate fs filename)
        = Ok input ->
        parse_program (new_parser (new_lexer input)) = (prog, p) ->
        compile_program compiler_new prog = (cerr, c) ->
        vm_run (vm_new (get_bytecode c)) = (verr, m) ->
        let r := snd (run_script BUFSIZ indeterminate fs filename) in
        (0 < errors p -> r = Ok EXIT_FAILURE)
        /\ (errors p = 0 -> cerr <> 0%Z -> r = Ok EXIT_FAILURE)
        /\ (errors p = 0 -> cerr = 0%Z -> verr <> 0%Z -> r = Ok EXIT_FAILURE)
        /\ (errors p = 0 -> cerr = 0%Z -> verr = 0%Z -> r = Ok EXIT_SUCCESS)
        /\ (exit_code r = Some 0%Z
            <-> errors p = 0 /\ cerr = 0%Z /\ verr = 0%Z)).
Proof.
  split.
  { intros H. unfold run_script. by rewrite read_file_unreadable. }
  intros input prog p cerr c verr m Hread Hparse Hcompile Hrun r.
  assert (Hr : r = Ok (if 0 <? errors p then EXIT_FAILURE
                       else if negb (cerr =? 0)%Z then EXIT_FAILURE
                       else if negb (verr =? 0)%Z then EXIT_FAILURE
                       else EXIT_SUCCESS)).
  { unfold r, run_script. rewrite (read_file_silent _ _ _ Hread).
    cbn [bind_out]. rewrite Hparse.
    destruct (0 <? errors p); [done|]. rewrite Hcompile.
    destruct (negb (cerr =? 0)%Z); [done|]. rewrite Hrun.
    by destruct (negb (verr =? 0)%Z). }
  rewrite Hr. clear Hr.
  destruct (Nat.ltb_spec 0 (errors p)) as [Hp|Hp];
    destruct (Z.eqb_spec cerr 0) as [Hc|Hc];
    destruct (Z.eqb_spec verr 0) as [Hv|Hv]; simpl;
    unfold EXIT_FAILURE, EXIT_SUCCESS;
    (repeat split; try done; try lia; try (intros; simplify_eq; lia)).
Qed.

(** ** One round of the loop *)

(** A round in which parsing, compilation and execution succeed. *)
Lemma repl_body_success (st : repl_state) (input : list ascii)
    prog p c m :
  parse_program (new_parser (new_lexer input)) = (prog, p) ->
  errors p = 0 ->
  compile_program
    (compiler_new_with_state (st_symbol_table st) (st_constants st)) prog
  = (0%Z, c) ->
  vm_run (vm_new_with_globals (get_bytecode c) (st_globals st)) = (0%Z, m) ->
  repl_body st (Some input)
  = (Printf ">> " []
       :: (if bool_decide (obj_type (vm_stack_last_popped m)
                           <> OBJ_COMPILED_FUNCTION)
              && bool_decide (obj_type (vm_stack_last_popped m) <> OBJ_BUILTIN)
           then [PrintObject (vm_stack_last_popped m); Puts ""]
           else []),
     NextRound {| st_symbol_table := compiler_symbol_table c;
                  st_constants := compiler_constants c;
                  st_globals := copy_globals m (st_globals st) |}).
Proof.
  intros Hparse Herr Hcompile Hrun. unfold repl_body.
  rewrite Hparse, Herr. simpl. rewrite Hcompile. simpl. rewrite Hrun. simpl.
  by destruct (_ && _).
Qed.

(** C5.  After a submission that parses, compiles and executes without
    error, the REPL prints the value of [vm_stack_last_popped] if and only
    if its type is neither [OBJ_COMPILED_FUNCTION] nor [OBJ_BUILTIN]; a
    value of any other type, a closure included, is printed, and no other
    value is. *)
Theorem repl_prints_last_popped (st : repl_state) (input : list ascii)
    prog p c m :
  parse_program (new_parser (new_lexer input)) = (prog, p) ->
  errors p = 0 ->
  compile_program
    (compiler_new_with_state (st_symbol_table st) (st_constants st)) prog
  = (0%Z, c) ->
  vm_run (vm_new_with_globals (get_bytecode c) (st_globals st)) = (0%Z, m) ->
  let obj := vm_stack_last_popped m in
  let out := fst (repl_body st (Some input)) in
  (In (PrintObject obj) out
   <-> obj_type obj <> OBJ_COMPILED_FUNCTION /\ obj_type obj <> OBJ_BUILTIN)
  /\ (forall o, In (PrintObject o) out -> o = obj)
  /\ (obj_type obj = OBJ_CLOSURE -> out = [Printf ">> " []; PrintObject obj; Puts ""]).
Proof.
  intros Hparse Herr Hcompile Hrun obj out.
  unfold out. rewrite (repl_body_success st input prog p c m) by done.
  fold obj. simpl.
  repeat case_bool_decide; simpl;
    repeat match goal with
           | H : ~ (_ <> _) |- _ => apply dec_stable in H
           end;
    (split; [split|split]); intros;
    repeat match goal with
           | H : _ \/ _ |- _ => destruct H
           | H : _ /\ _ |- _ => destruct H
           | H : False |- _ => destruct H
           end;
    try discriminate; try congruence;
    try (split; assumption); try (right; left; reflexivity).
Qed.

(** ** The copy of the globals *)



(** ** The rounds that end in an error *)

Lemma repl_body_eof (st : repl_state) :
  repl_body st None = ([Printf ">> " []], NextRound st).
Proof. reflexivity. Qed.

Lemma repl_body_parse_error (st : repl_state) (input : list ascii) prog p :
  parse_program (new_parser (new_lexer input)) = (prog, p) ->
  0 < errors p ->
  repl_body st (Some input)
  = (Printf ">> " [] :: Printf "Parsing error:\n" []
       :: print_errors (fun msg => Printf "- %s\n" [ArgStr msg]) p,
     NextRound st).
Proof.
  intros Hparse Herr. unfold repl_body. rewrite Hparse.
  by destruct (Nat.ltb_spec 0 (errors p)); [|lia].
Qed.

Lemma repl_body_compile_error (st : repl_state) (input : list ascii)
    prog p cerr c :
  parse_program (new_parser (new_lexer input)) = (prog, p) ->
  errors p = 0 ->
  compile_program
    (compiler_new_with_state (st_symbol_table st) (st_constants st)) prog
  = (cerr, c) ->
  cerr <> 0%Z ->
  repl_body st (Some input)
  = ([Printf ">> " []; Puts (compiler_error_str cerr)],
     NextRound {| st_symbol_table := compiler_symbol_table c;
                  st_constants := compiler_constants c;
                  st_globals := st_globals st |}).
Proof.
  intros Hparse Herr Hcompile Hne. unfold repl_body.
  rewrite Hparse, Herr. simpl. rewrite Hcompile.
  by destruct (Z.eqb_spec cerr 0).
Qed.

Lemma repl_body_runtime_error (st : repl_state) (input : list ascii)
    prog p c verr m :
  parse_program (new_parser (new_lexer input)) = (prog, p) ->
  errors p = 0 ->
  compile_program
    (compiler_new_with_state (st_symbol_table st) (st_constants st)) prog
  = (0%Z, c) ->
  vm_run (vm_new_with_globals (get_bytecode c) (st_globals st)) = (verr, m) ->
  verr <> 0%Z ->
  repl_body st (Some input)
  = ([Printf ">> " []; Printf "Error executing bytecode: %d\n" [ArgInt verr]],
     NextRound {| st_symbol_table := compiler_symbol_table c;
                  st_constants := compiler_constants c;
                  st_globals := st_globals st |}).
Proof.
  intros Hparse Herr Hcompile Hrun Hne. unfold repl_body.
  rewrite Hparse, Herr. simpl. rewrite Hcompile. simpl. rewrite Hrun.
  by destruct (Z.eqb_spec verr 0).
Qed.

(** Every round ends with the next round.  Its state holds the objects the
    round's compiler worked on, if one was made, and globals that are
    either untouched or copied from a machine that was started on them and
    ran without error. *)
Lemma repl_body_next (st : repl_state) (line : option (list ascii)) :
  exists st',
    snd (repl_body st line) = NextRound st'
    /\ ((st_symbol_table st' = st_symbol_table st
         /\ st_constants st' = st_constants st)
        \/ exists prog cerr c,
             compile_program
               (compiler_new_with_state (st_symbol_table st) (st_constants st))
               prog = (cerr, c)
             /\ st_symbol_table st' = compiler_symbol_table c
             /\ st_constants st' = compiler_constants c)
    /\ (st_globals st' = st_globals st
        \/ exists code m,
             vm_run (vm_new_with_globals code (st_globals st)) = (0%Z, m)
             /\ st_globals st' = copy_globals m (st_globals st)).
Proof.
  destruct line as [input|]; [|exists st; simpl; auto].
  destruct (parse_program (new_parser (new_lexer input))) as [prog p] eqn:Hparse.
  destruct (Nat.ltb_spec 0 (errors p)) as [Hp|Hp].
  { rewrite (repl_body_parse_error st input prog p) by done.
    exists st. simpl. auto. }
  assert (Herr : errors p = 0) by lia.
  destruct (compile_program
              (compiler_new_with_state (st_symbol_table st) (st_constants st))
              prog) as [cerr c] eqn:Hcompile.
  destruct (Z.eqb_spec cerr 0) as [->|Hc].
  2:{ rewrite (repl_body_compile_error st input prog p cerr c) by done.
      eexists. simpl. split; [done|]. split; [|by left].
      right. by exists prog, cerr, c. }
  destruct (vm_run (vm_new_with_globals (get_bytecode c) (st_globals st)))
    as [verr m] eqn:Hrun.
  destruct (Z.eqb_spec verr 0) as [->|Hv].
  2:{ rewrite (repl_body_runtime_error st input prog p c verr m) by done.
      eexists. simpl. split; [done|]. split; [|by left].
      right. by exists prog, 0%Z, c. }
  rewrite (repl_body_success st input prog p c m) by done.
  eexists. simpl. split; [done|]. split.
  - right. by exists prog, 0%Z, c.
  - right. by exists (get_bytecode c), m.
Qed.

Lemma repl_loop_running (fuel : nat) (stdin : nat -> option (list ascii))
    (k : nat) (st : repl_state) :
  snd (repl_loop fuel stdin k st) = OutOfFuel.
Proof.
  revert k st. induction fuel as [|fuel IH]; intros k st; simpl; [done|].
  destruct (repl_body_next st (stdin k)) as (st' & Hnext & _).
  destruct (repl_body st (stdin k)) as [out step]. simpl in Hnext. subst step.
  specialize (IH (S k) st').
  by destruct (repl_loop fuel stdin (S k) st').
Qed.

Lemma repl_loop_eof (fuel : nat) (stdin : nat -> option (list ascii))
    (k : nat) (st : repl_state) :
  (forall j, stdin j = None) ->
  fst (repl_loop fuel stdin k st) = replicate fuel (Printf ">> " []).
Proof.
  intros Heof. revert k. induction fuel as [|fuel IH]; intros k; simpl; [done|].
  rewrite Heof. simpl. specialize (IH (S k)).
  destruct (repl_loop fuel stdin (S k) st). simpl in *. by rewrite IH.
Qed.

(** C9.  The loop of [repl] never ends from within: whatever number of
    rounds it is run for, it is still running, so the [return] after it is
    not reached.  A round whose read fails prints the prompt and goes on to
    the next round with the state it had; at the end of the input the REPL
    therefore prints one prompt per round, for as long as it runs. *)
Theorem repl_never_returns (fuel : nat) (stdin : nat -> option (list ascii))
    (globals : list object) :
  snd (repl fuel stdin globals) = OutOfFuel
  /\ (forall st, repl_body st None = ([Printf ">> " []], NextRound st))
  /\ ((forall k, stdin k = None) ->
      fst (repl fuel stdin globals)
      = Printf "Pepper v%d.%d.%d\n" [ArgInt 0; ArgInt 0; ArgInt 1]
          :: Printf "Press CTRL+c to exit\n\n" []
          :: replicate fuel (Printf ">> " [])).
Proof.
  unfold repl. cbn [bind_out app print_version].
  set (st := {| st_symbol_table := symbol_table_new;
                st_constants := make_object_list 64;
                st_globals := globals |}).
  pose proof (repl_loop_running fuel stdin 0 st) as Hrun.
  split; [|split].
  - destruct (repl_loop fuel stdin 0 st) as [out r]. simpl in *. by subst r.
  - apply repl_body_eof.
  - intros Heof. pose proof (repl_loop_eof fuel stdin 0 st Heof) as Hout.
    destruct (repl_loop fuel stdin 0 st) as [out r]. simpl in *. by subst.
Qed.

(** ** What lives across the rounds *)


(** C6, as the code has it.  On a parse, compile or run-time error the
    error is printed and the loop goes on to the next round, and the
    globals array is exactly as it was: the copy out of the machine is
    skipped.  After a parse error the symbol table and the constant pool
    are untouched as well.  After a compile or run-time error they are
    the objects the failing submission was compiled into, as its compiler
    left them: the REPL does not undo what that compilation defined,
    redefined or pooled. *)
Theorem repl_error_recovery (st : repl_state) (input : list ascii)
    prog p cerr c verr m :
  parse_program (new_parser (new_lexer input)) = (prog, p) ->
  compile_program
    (compiler_new_with_state (st_symbol_table st) (st_constants st)) prog
  = (cerr, c) ->
  vm_run (vm_new_with_globals (get_bytecode c) (st_globals st)) = (verr, m) ->
  let kept := {| st_symbol_table := compiler_symbol_table c;
                 st_constants := compiler_constants c;
                 st_globals := st_globals st |} in
  (0 < errors p ->
   repl_body st (Some input)
   = (Printf ">> " [] :: Printf "Parsing error:\n" []
        :: map (fun i => Printf "- %s\n" [ArgStr (error_messages p i)])
               (seq 0 (errors p)),
      NextRound st))
  /\ (errors p = 0 -> cerr <> 0%Z ->
      repl_body st (Some input)
      = ([Printf ">> " []; Puts (compiler_error_str cerr)], NextRound kept))
  /\ (errors p = 0 -> cerr = 0%Z -> verr <> 0%Z ->
      repl_body st (Some input)
      = ([Printf ">> " [];
          Printf "Error executing bytecode: %d\n" [ArgInt verr]],
         NextRound kept)).
Proof.
  intros Hparse Hcompile Hrun kept. split; [|split].
  - intros Hp. by apply repl_body_parse_error with prog.
  - intros Hp Hc. by apply repl_body_compile_error with prog p.
  - intros Hp -> Hv. by apply repl_body_runtime_error with prog p m.
Qed.

End FrontEndFacts.

(** * Reading a script *)

Section ReadFileFacts.

Variable BUFSIZ : nat.
Variable indeterminate : nat -> ascii.

Hypothesis bufsiz_pos : 0 < BUFSIZ.
Hypothesis bufsiz_small : (2 * N.of_nat BUFSIZ < 2 ^ 32)%N.

Lemma wrap32_small (n : N) : (n < 2 ^ 32)%N -> wrap32 n = n.
Proof. intros H. unfold wrap32. by apply N.mod_small. Qed.

Lemma read_loop_unfold (fuel : nat) (f input : list ascii) (size : N) :
  read_loop BUFSIZ indeterminate fuel f input size
  = let chunk := take BUFSIZ f in
    let* input := store_chunk chunk input in
    let read := wrap32 (N.of_nat (length chunk)) in
    if (0 <? read)%N then
      match fuel with
      | 0 => OutOfFuel
      | S fuel' =>
          let size := wrap32 (size + read) in
          let input :=
            if (wrap32 (N.of_nat BUFSIZ) <=? read)%N
            then realloc indeterminate input
                   (N.to_nat (wrap32 (size + N.of_nat BUFSIZ)))
            else input in
          read_loop BUFSIZ indeterminate fuel' (drop BUFSIZ f) input size
      end
    else Ok (input, size).
Proof. by destruct fuel. Qed.

(** At the end of the file the loop stops and leaves the block alone. *)
Lemma read_loop_eof (fuel : nat) (input : list ascii) (size : N) :
  read_loop BUFSIZ indeterminate fuel [] input size = Ok (input, size).
Proof.
  rewrite read_loop_unfold. rewrite take_nil. unfold store_chunk. simpl.
  by rewrite drop_0.
Qed.

(** A last chunk, shorter than [BUFSIZ]: it is stored at the start of the
    block. *)
Lemma read_loop_last_chunk (fuel : nat) (f input : list ascii) (size : N) :
  0 < length f < BUFSIZ -> length f <= length input ->
  (size + N.of_nat (length f) < 2 ^ 32)%N ->
  read_loop BUFSIZ indeterminate (S fuel) f input size
  = Ok (f ++ drop (length f) input, (size + N.of_nat (length f))%N).
Proof.
  intros Hf Hin Hsize. rewrite read_loop_unfold. cbv zeta.
  rewrite take_ge by lia. unfold store_chunk.
  destruct (Nat.leb_spec (length f) (length input)); [|lia]. cbn [bind].
  rewrite (wrap32_small (N.of_nat (length f))) by lia.
  destruct (N.ltb_spec 0 (N.of_nat (length f))); [|lia].
  rewrite (wrap32_small (N.of_nat BUFSIZ)) by lia.
  destruct (N.leb_spec (N.of_nat BUFSIZ) (N.of_nat (length f))); [lia|].
  rewrite drop_ge by lia. rewrite read_loop_eof.
  by rewrite wrap32_small by lia.
Qed.

(** A file shorter than [BUFSIZ] that holds no NUL is read as it is. *)
Lemma read_file_short {object : Type} (fs : string -> option (list ascii))
    (filename : string) (content : list ascii) :
  fs filename = Some content ->
  length content < BUFSIZ ->
  Forall (fun c => c <> NUL) content ->
  exists block,
    read_file (object := object) BUFSIZ indeterminate fs filename
    = ([], Ok block)
    /\ c_string block = content.
Proof.
  intros Hfs Hlen Hnul. unfold read_file. rewrite Hfs. unfold calloc.
  destruct content as [|c content].
  - rewrite read_loop_eof. cbn [bind]. unfold store_byte.
    change (N.to_nat 0) with 0. rewrite length_replicate.
    destruct (Nat.ltb_spec 0 BUFSIZ); [|lia].
    eexists. split; [done|]. destruct BUFSIZ; [lia|]. done.
  - rewrite read_loop_last_chunk;
      [|simpl in *; lia|rewrite length_replicate; lia|simpl in *; lia].
    cbn [bind]. rewrite N.add_0_l, Nat2N.id. unfold store_byte.
    rewrite length_app, length_drop, length_replicate.
    destruct (Nat.ltb_spec (length (c :: content))
                (length (c :: content) + (BUFSIZ - length (c :: content))));
      [|lia].
    eexists. split; [done|].
    rewrite drop_replicate, insert_app_r_alt by lia. rewrite Nat.sub_diag.
    destruct (BUFSIZ - length (c :: content)) eqn:E; [lia|].
    simpl replicate. simpl insert. by apply c_string_app_nul.
Qed.

(** A file longer than [BUFSIZ] (and shorter than twice that): the second
    chunk is stored over the first, so the block starts with the byte at
    offset [BUFSIZ] of the file. *)
Lemma read_file_long {object : Type} (fs : string -> option (list ascii))
    (filename : string) (content : list ascii) :
  fs filename = Some content ->
  BUFSIZ < length content < 2 * BUFSIZ ->
  exists block,
    read_file (object := object) BUFSIZ indeterminate fs filename
    = ([], Ok block)
    /\ char_at block 0 = char_at content BUFSIZ.
Proof.
  intros Hfs Hlen. unfold read_file. rewrite Hfs. unfold calloc.
  rewrite read_loop_unfold. cbv zeta.
  assert (Htake : length (take BUFSIZ content) = BUFSIZ)
    by (rewrite length_take; lia).
  unfold store_chunk at 1. rewrite Htake, length_replicate.
  destruct (Nat.leb_spec BUFSIZ BUFSIZ); [|lia]. cbn [bind].
  rewrite drop_replicate, Nat.sub_diag. simpl replicate. rewrite app_nil_r.
  rewrite (wrap32_small (N.of_nat BUFSIZ)) by lia.
  destruct (N.ltb_spec 0 (N.of_nat BUFSIZ)); [|lia].
  destruct (N.leb_spec (N.of_nat BUFSIZ) (N.of_nat BUFSIZ)); [|lia].
  rewrite N.add_0_l.
  rewrite (wrap32_small (N.of_nat BUFSIZ)) by lia.
  rewrite (wrap32_small (N.of_nat BUFSIZ + N.of_nat BUFSIZ)) by lia.
  set (block1 := realloc indeterminate (take BUFSIZ content) _).
  assert (Hblock1 : length block1 = 2 * BUFSIZ).
  { unfold block1, realloc.
    rewrite length_app, length_take, length_map, length_seq, Htake. lia. }
  destruct (length content) as [|n] eqn:En; [lia|].
  rewrite read_loop_last_chunk;
    [|rewrite length_drop; lia|rewrite length_drop; lia
     |rewrite length_drop; lia].
  cbn [bind]. unfold store_byte.
  rewrite length_app, !length_drop, Hblock1.
  set (size := N.to_nat _).
  assert (Hsize : size = S n).
  { unfold size. rewrite En. lia. }
  destruct (Nat.ltb_spec size (length content - BUFSIZ
                               + (2 * BUFSIZ - (length content - BUFSIZ))));
    [|lia].
  eexists. split; [done|].
  destruct (drop BUFSIZ content) as [|c rest] eqn:Hdrop.
  { apply (f_equal length) in Hdrop. rewrite length_drop in Hdrop.
    simpl in Hdrop. lia. }
  apply drop_cons_inv in Hdrop as [-> _].
  rewrite Hsize. reflexivity.
Qed.

End ReadFileFacts.

Lemma c_string_head (block content : list ascii) :
  c_string block = content -> content <> [] ->
  char_at block 0 = char_at content 0.
Proof.
  intros H Hne. destruct block as [|b block]; simpl in H; [by subst|].
  destruct (Ascii.eqb b NUL); by subst.
Qed.

(** C2 does not hold for long files: the code has a defect.  Every call
    of [fread] in [read_file] stores at the start of the block, not after
    the bytes read so far.  For a file longer than [BUFSIZ] (and shorter
    than twice that) the block that [read_file] returns, which [run_script]
    hands to [new_lexer], starts with the byte at offset [BUFSIZ] of the
    file; unless that byte equals the first, the string in the block is not
    the file's contents. *)
Theorem read_file_overwrites_first_chunk (BUFSIZ : nat)
    (indeterminate : nat -> ascii) (fs : string -> option (list ascii))
    (filename : string) (content : list ascii) :
  0 < BUFSIZ -> (2 * N.of_nat BUFSIZ < 2 ^ 32)%N ->
  fs filename = Some content ->
  BUFSIZ < length content < 2 * BUFSIZ ->
  exists block,
    read_file (object := unit) BUFSIZ indeterminate fs filename
    = ([], Ok block)
    /\ char_at block 0 = char_at content BUFSIZ
    /\ (char_at content 0 <> char_at content BUFSIZ ->
        c_string block <> content).
Proof.
  intros Hpos Hsmall Hfs Hlen.
  destruct (read_file_long BUFSIZ indeterminate Hpos Hsmall (object := unit)
              fs filename content Hfs Hlen) as (block & Hread & Hhead).
  exists block. split; [done|]. split; [done|].
  intros Hne Hstr. apply Hne. rewrite <- Hhead.
  symmetry. apply c_string_head; [done|].
  intros ->. simpl in Hlen. lia.
Qed.

Lemma read_file_overwrites_first_chunk_witness :
  let content := replicate 256 "a"%char ++ ["b"%char] in
  exists block,
    read_file (object := unit) 256 (fun _ => "?"%char)
              (fun _ => Some content) "long.pep"
    = ([], Ok block)
    /\ char_at block 0 = "b"%char
    /\ c_string block <> content.
Proof.
  intros content.
  destruct (read_file_overwrites_first_chunk 256 (fun _ => "?"%char)
              (fun _ => Some content) "long.pep" content)
    as (block & Hread & Hhead & Hne).
  - lia.
  - reflexivity.
  - reflexivity.
  - unfold content. rewrite length_app, length_replicate. simpl. lia.
  - exists block. split; [exact Hread|]. split.
    + rewrite Hhead. reflexivity.
    + apply Hne. discriminate.
Defined.

(** * The front end on the miniature interpreter *)

Lemma main_dispatch_witness :
  main (I := Sample.interpreter) 64 (fun _ => NUL) 0 (fun _ => None) []
       Sample.files ["pepper"; "--version"]
  = ([Printf "Pepper v%d.%d.%d\n" [ArgInt 0; ArgInt 0; ArgInt 1]], Ok 0%Z).
Proof.
  apply (proj1 (proj2 (main_dispatch (I := Sample.interpreter) 64
                         (fun _ => NUL) 0 (fun _ => None) [] Sample.files
                         ["pepper"; "--version"])) "--version");
    reflexivity.
Defined.

Lemma run_script_exit_code_witness :
  snd (run_script (I := Sample.interpreter) 64 (fun _ => NUL)
         Sample.files "sum.pep")
  = Ok EXIT_SUCCESS.
Proof.
  edestruct (proj2 (run_script_exit_code (I := Sample.interpreter) 64
                      (fun _ => NUL) Sample.files "sum.pep"))
    as (_ & _ & _ & H & _);
    [vm_compute; reflexivity ..| apply H; reflexivity].
Defined.

Lemma repl_prints_last_popped_witness :
  In (PrintObject (Sample.Integer 5))
     (fst (repl_body (I := Sample.interpreter) Sample.initial_state
             (Some (Sample.source "5;")))).
Proof.
  edestruct (repl_prints_last_popped (I := Sample.interpreter)
               Sample.initial_state (Sample.source "5;"))
    as ([_ H] & _ & _);
    [vm_compute; reflexivity ..|].
  apply H. split; discriminate.
Defined.

Lemma repl_never_returns_witness :
  fst (repl (I := Sample.interpreter) 3 (fun _ => None) [])
  = [Printf "Pepper v%d.%d.%d\n" [ArgInt 0; ArgInt 0; ArgInt 1];
     Printf "Press CTRL+c to exit\n\n" [];
     Printf ">> " []; Printf ">> " []; Printf ">> " []]
  /\ snd (repl (I := Sample.interpreter) 3 (fun _ => None) []) = OutOfFuel.
Proof.
  destruct (repl_never_returns (I := Sample.interpreter) 3 (fun _ => None) [])
    as (Hrun & _ & Hout).
  split; [apply Hout; reflexivity|exact Hrun].
Defined.


Lemma repl_error_recovery_witness :
  fst (repl_body (I := Sample.interpreter)
         (repl_state_after (I := Sample.interpreter) 2 Sample.session 0
            Sample.initial_state)
         (Some Sample.redefine_then_fail))
  = [Printf ">> " []; Printf "Error executing bytecode: %d\n" [ArgInt 1]].
Proof.
  edestruct (repl_error_recovery (I := Sample.interpreter)
               (repl_state_after (I := Sample.interpreter) 2 Sample.session 0
                  Sample.initial_state)
               Sample.redefine_then_fail)
    as (_ & _ & H);
    [vm_compute; reflexivity ..|].
  rewrite H; [reflexivity|vm_compute; reflexivity|reflexivity|discriminate].
Defined.

(** C6, as the claim states it, fails.  After [let x = 5;] the submission
    [let x = 7; 1 + "a";] compiles and then fails in the machine.  The
    REPL prints the error and goes on, with the globals as they were, but
    the table now maps [x] to the slot the failed submission defined and
    the pool holds its three literals: they did not keep their contents.
    The submission [x;], which printed 5 before the failure, prints the
    null value after it.  Here [st] is the state before the failing round
    and [st'] the state after it. *)
Lemma repl_keeps_what_a_failed_submission_compiled :
  let st := repl_state_after (I := Sample.interpreter) 2 Sample.session 0
              Sample.initial_state in
  let st' := repl_state_after (I := Sample.interpreter) 3 Sample.session 0
               Sample.initial_state in
  fst (repl_body (I := Sample.interpreter) st
         (Some Sample.redefine_then_fail))
  = [Printf ">> " []; Printf "Error executing bytecode: %d\n" [ArgInt 1]]
  /\ st_globals st' = st_globals st
  /\ ~ (st_symbol_table st' = st_symbol_table st
        /\ st_constants st' = st_constants st)
  /\ fst (SymbolTable.resolve "x" (st_symbol_table st))
     = Some (SymbolTable.Symbol "x" SymbolTable.ScopeGlobal 0)
  /\ fst (SymbolTable.resolve "x" (st_symbol_table st'))
     = Some (SymbolTable.Symbol "x" SymbolTable.ScopeGlobal 1)
  /\ st_constants st = [Sample.Integer 5]
  /\ st_constants st'
     = [Sample.Integer 5; Sample.Integer 7; Sample.Integer 1;
        Sample.Str ["a"%char]]
  /\ fst (repl_body (I := Sample.interpreter) st (Some (Sample.source "x;")))
     = [Printf ">> " []; PrintObject (Sample.Integer 5); Puts ""]
  /\ fst (repl_body (I := Sample.interpreter) st' (Some (Sample.source "x;")))
     = [Printf ">> " []; PrintObject Sample.Null; Puts ""].
Proof.
  intros st st'. split_and!; try (vm_compute; reflexivity).
  intros [_ H]. vm_compute in H. discriminate H.
Qed.

(** * More properties of the lexers and of the front end *)

(** ** More about the loops of [gettoken] *)

(** More fuel does not change what the whitespace loop returns. *)
Lemma skip_whitespace_fuel (fuel fuel' : nat) (l : lexer) (ch : ascii) r :
  skip_whitespace fuel l ch = Ok r -> fuel <= fuel' ->
  skip_whitespace fuel' l ch = Ok r.
Proof.
  revert fuel' l ch. induction fuel as [|fuel IH]; intros fuel' l ch H Hle.
  - destruct fuel'; simpl in *; destruct (isspace ch); done.
  - destruct fuel' as [|fuel']; [lia|]. simpl in *.
    destruct (isspace ch); [|done]. apply IH; [done|lia].
Qed.

(** The whitespace loop over a known run of whitespace. *)
Lemma skip_whitespace_prefix (ws rest : list ascii) (fuel : nat) (l : lexer) :
  Forall (fun w => isspace w = true) ws ->
  drop (pos l) (input l) = ws ++ rest ->
  length ws <= fuel ->
  skip_whitespace fuel (advance l) (char_at (input l) (pos l))
  = skip_whitespace (fuel - length ws) (advance (after_chars ws l))
      (char_at (input l) (pos l + length ws)).
Proof.
  intros Hws. revert fuel l.
  induction Hws as [|w ws Hw _ IH]; intros fuel l Hdrop Hfuel; simpl in *.
  - by rewrite Nat.sub_0_r, Nat.add_0_r.
  - apply drop_cons_inv in Hdrop as [Hch Hdrop].
    destruct fuel as [|fuel]; [lia|]. simpl. rewrite Hch, Hw.
    destruct (after_char_input l w) as [Hin Hpos].
    etrans; [apply (IH fuel (after_char l w)); [by rewrite Hin, Hpos|lia]|].
    rewrite Hin, Hpos.
    by replace (S (pos l) + length ws) with (pos l + S (length ws)) by lia.
Qed.

Lemma skip_whitespace_inv (fuel : nat) (l : lexer) (ch : ascii) l' ch' :
  skip_whitespace fuel l ch = Ok (l', ch') ->
  input l' = input l /\ pos l <= pos l' /\ isspace ch' = false.
Proof.
  revert l ch. induction fuel as [|fuel IH]; intros l ch H; simpl in H.
  - destruct (isspace ch) eqn:E; [done|]. by simplify_eq.
  - destruct (isspace ch) eqn:E; [|by simplify_eq].
    apply IH in H as (Hin & Hpos & Hsp). simpl in *.
    unfold line_advance in *. destruct (Ascii.eqb ch NEWLINE); simpl in *;
      split_and!; try done; lia.
Qed.

Lemma skip_comment_inv (fuel : nat) (l l' : lexer) :
  skip_comment fuel l = Ok l' -> input l' = input l /\ pos l <= pos l'.
Proof.
  revert l. induction fuel as [|fuel IH]; intros l H; simpl in H.
  - destruct (negb _ && negb _); [done|]. by simplify_eq.
  - destruct (negb _ && negb _); [|by simplify_eq].
    apply IH in H as [Hin Hpos]. simpl in *. split; [done|lia].
Qed.

Lemma read_string_inv (fuel : nat) (l l' : lexer) :
  read_string fuel l = Ok l' ->
  input l' = input l /\ pos l < pos l' /\ cur_lineno l' = cur_lineno l.
Proof.
  revert l. induction fuel as [|fuel IH]; intros l H; simpl in H; [done|].
  destruct (_ || _).
  - simplify_eq. simpl. split_and!; try done; lia.
  - apply IH in H as (Hin & Hpos & Hline). simpl in *.
    split_and!; try done; lia.
Qed.

Lemma literal_write_inv (i : nat) (c : ascii) (t t' : token) :
  literal_write i c t = Ok t' ->
  type t' = type t /\ line t' = line t /\ tok_pos t' = tok_pos t.
Proof.
  unfold literal_write. destruct (_ <? _); [|done]. intros H. by simplify_eq.
Qed.

Lemma char_token_inv (ty : token_type) (c : ascii) (t t' : token) :
  char_token ty c t = Ok t' ->
  type t' = ty /\ line t' = line t /\ tok_pos t' = tok_pos t.
Proof.
  unfold char_token. intros H.
  destruct (literal_write 0 c (set_type ty t)) as [t1| | |] eqn:E1;
    cbn [bind] in H; try done.
  apply literal_write_inv in E1 as (? & ? & ?).
  apply literal_write_inv in H as (? & ? & ?). simpl in *.
  split_and!; congruence.
Qed.

Lemma strcpy_from_inv (s : list ascii) (i : nat) (t t' : token) :
  strcpy_from i s t = Ok t' ->
  type t' = type t /\ line t' = line t /\ tok_pos t' = tok_pos t.
Proof.
  revert i t. induction s as [|c s IH]; intros i t H; simpl in H.
  - by apply literal_write_inv in H.
  - destruct (literal_write i c t) as [t1| | |] eqn:E1; cbn [bind] in H;
      try done.
    apply literal_write_inv in E1 as (? & ? & ?).
    apply IH in H as (? & ? & ?). split_and!; congruence.
Qed.

Section ReadRunInv.

Variable MAX_IDENT_LENGTH : nat.
Variable cond : ascii -> bool.

Lemma read_run_inv (fuel : nat) (l : lexer) (t : token) (ch : ascii) (i : nat)
    l' t' i' :
  read_run MAX_IDENT_LENGTH cond fuel l t ch i = Ok (l', t', i') ->
  input l' = input l /\ pos l <= pos l' /\ cur_lineno l' = cur_lineno l
  /\ type t' = type t /\ line t' = line t /\ tok_pos t' = tok_pos t
  /\ (cond ch = true -> i < MAX_IDENT_LENGTH - 1 -> pos l < pos l').
Proof.
  revert l t ch i. induction fuel as [|fuel IH]; intros l t ch i H; simpl in H.
  - destruct (cond ch) eqn:Hc; simpl in H.
    + destruct (Nat.ltb_spec i (MAX_IDENT_LENGTH - 1)); [done|].
      simplify_eq. split_and!; try done. lia.
    + simplify_eq. split_and!; done.
  - destruct (cond ch) eqn:Hc; simpl in H.
    + destruct (Nat.ltb_spec i (MAX_IDENT_LENGTH - 1)).
      * destruct (literal_write i ch t) as [t1| | |] eqn:E1; cbn [bind] in H;
          try done.
        apply literal_write_inv in E1 as (? & ? & ?).
        apply IH in H as (? & ? & ? & ? & ? & ? & _). simpl in *.
        split_and!; try congruence; lia.
      * simplify_eq. split_and!; try done. lia.
    + simplify_eq. split_and!; done.
Qed.

End ReadRunInv.

Section SwitchInv.

Variable MAX_IDENT_LENGTH : nat.

(** What a returning [switch] has done: either it went through the comment
    case and returns what the recursive call returns, or it stayed on the
    line, kept the line and the column recorded in the token, and left the
    cursor at or after the character that follows [ch]. *)
Lemma lex_switch_inv rec ch l t l' t' :
  lex_switch MAX_IDENT_LENGTH rec ch l t = Ok (l', t') ->
  (ch = "/"%char /\ char_at (input l) (pos l) = "/"%char
   /\ exists l2, input l2 = input l /\ pos l <= pos l2
                 /\ rec l2 t = Ok (l', t'))
  \/ (input l' = input l /\ cur_lineno l' = cur_lineno l
      /\ line t' = line t /\ tok_pos t' = tok_pos t
      /\ pos l - 1 <= pos l'
      /\ (2 <= MAX_IDENT_LENGTH -> pos l <= pos l')).
Proof.
  intros H.
  destruct (is_letter ch) eqn:Hl.
  { right. rewrite lex_switch_letter in H by done.
    destruct (read_run _ _ _ _ _ _ _) as [[[l1 t1] i1]| | |] eqn:E;
      cbn [bind] in H; try done.
    destruct (literal_write i1 NUL t1) as [t2| | |] eqn:E2; cbn [bind] in H;
      try done.
    simplify_eq.
    apply read_run_inv in E as (? & ? & ? & ? & ? & ? & Hstep).
    apply literal_write_inv in E2 as (? & ? & ?).
    rewrite Hl in Hstep. simpl in *.
    assert (line (get_ident t2) = line t2 /\ tok_pos (get_ident t2) = tok_pos t2)
      as [-> ->] by (unfold get_ident; repeat case_match; done).
    specialize (Hstep eq_refl).
    split_and!; try congruence; lia. }
  destruct (isdigit ch) eqn:Hd.
  { right. rewrite lex_switch_digit in H by done.
    destruct (read_run _ _ _ _ _ _ _) as [[[l1 t1] i1]| | |] eqn:E;
      cbn [bind] in H; try done.
    destruct (literal_write i1 NUL t1) as [t2| | |] eqn:E2; cbn [bind] in H;
      try done.
    simplify_eq.
    apply read_run_inv in E as (? & ? & ? & ? & ? & ? & Hstep).
    apply literal_write_inv in E2 as (? & ? & ?).
    rewrite Hd in Hstep. simpl in *.
    specialize (Hstep eq_refl).
    split_and!; try congruence; lia. }
  destruct ch as [[] [] [] [] [] [] [] []]; vm_compute in Hl, Hd;
    try discriminate Hl; try discriminate Hd; clear Hl Hd;
    unfold lex_switch in H; cbv beta iota zeta in H;
    try (match type of H with
         | (if is_letter ?c then _ else _) = _ =>
             change (is_letter c) with false in H;
             change (isdigit c) with false in H; cbv beta iota in H
         end);
    try (destruct (Ascii.eqb _ _) eqn:Enext);
    try (right;
         match type of H with
         | bind (char_token ?ty ?c ?t0) _ = _ =>
             destruct (char_token ty c t0) as [t1| | |] eqn:E;
             cbn [bind] in H; try done; simplify_eq;
             apply char_token_inv in E as (? & ? & ?)
         | bind (strcpy_literal ?s ?t0) _ = _ =>
             unfold strcpy_literal in H;
             destruct (strcpy_from 0 (String.list_ascii_of_string s) t0)
               as [t1| | |] eqn:E;
             cbn [bind] in H; try done; simplify_eq;
             apply strcpy_from_inv in E as (? & ? & ?)
         | bind (literal_write ?i ?c ?t0) _ = _ =>
             destruct (literal_write i c t0) as [t1| | |] eqn:E;
             cbn [bind] in H; try done; simplify_eq;
             apply literal_write_inv in E as (? & ? & ?)
         | Ok _ = Ok _ => simplify_eq
         end;
         simpl in *; split_and!; (done || lia)).
  - (* the comment *)
    left. apply Ascii.eqb_eq in Enext. split_and!; try done.
    destruct (skip_comment (loop_fuel l) l) as [l2| | |] eqn:E;
      cbn [bind] in H; try done.
    apply skip_comment_inv in E as [? ?]. by exists l2.
  - (* the string *)
    right.
    destruct (read_string (loop_fuel l) l) as [l2| | |] eqn:E;
      cbn [bind] in H; try done.
    simplify_eq. apply read_string_inv in E as (? & ? & ?).
    simpl. split_and!; (done || lia).
Qed.

Lemma gettoken_fuel_inv (fuel : nat) (l : lexer) (t : token) l' t' :
  2 <= MAX_IDENT_LENGTH ->
  gettoken_fuel MAX_IDENT_LENGTH fuel l t = Ok (l', t') ->
  input l' = input l /\ pos l < pos l'.
Proof.
  intros Hmax. revert l t.
  induction fuel as [|fuel IH]; intros l t H; [done|].
  rewrite gettoken_fuel_S in H.
  destruct (skip_whitespace _ _ _) as [[l1 ch1]| | |] eqn:E; cbn [bind] in H;
    try done.
  apply skip_whitespace_inv in E as (Hin & Hpos & _). simpl in Hin, Hpos.
  apply lex_switch_inv in H
    as [(_ & _ & l2 & Hin2 & Hpos2 & H)|(Hin' & _ & _ & _ & _ & Hpos')].
  - apply IH in H as [Hin' Hpos']. split; [congruence|lia].
  - split; [congruence|]. specialize (Hpos' Hmax). lia.
Qed.

End SwitchInv.

Lemma after_chars_lineno (cs : list ascii) (l : lexer) :
  cur_lineno (after_chars cs l)
  = cur_lineno l + length (filter (fun c => c = NEWLINE) cs).
Proof.
  unfold after_chars. revert l. induction cs as [|c cs IH]; intros l.
  - simpl. lia.
  - cbn [foldl]. rewrite IH, filter_cons. unfold after_char, line_advance.
    destruct (decide (c = NEWLINE)) as [->|Hne].
    + simpl. lia.
    + destruct (Ascii.eqb_spec c NEWLINE) as [|_]; [done|]. simpl. lia.
Qed.

(** X1.  Whitespace in front of a token only moves the cursor.  When the
    text at the cursor starts with the whitespace [ws], [gettoken] returns
    what it returns from the cursor that has read [ws]: the offset is past
    [ws], every newline of [ws] has added one to the line number and reset
    the column. *)
Theorem gettoken_skips_whitespace (MAX_IDENT_LENGTH : nat)
    (ws rest : list ascii) (l : lexer) (t : token) :
  Forall (fun c => isspace c = true) ws ->
  drop (pos l) (input l) = ws ++ rest ->
  gettoken MAX_IDENT_LENGTH l t
  = gettoken MAX_IDENT_LENGTH (after_chars ws l) t
  /\ pos (after_chars ws l) = pos l + length ws
  /\ cur_lineno (after_chars ws l)
     = cur_lineno l + length (filter (fun c => c = NEWLINE) ws).
Proof.
  intros Hws Hdrop.
  destruct (after_chars_input ws l) as [Hin Hpos].
  split; [|split; [done|apply after_chars_lineno]].
  destruct ws as [|w ws'] eqn:Ews; [done|]. rewrite <- Ews in *.
  assert (Hlt : pos l + length ws <= length (input l) /\ 0 < length ws).
  { apply (f_equal length) in Hdrop.
    rewrite length_drop, length_app in Hdrop. subst ws. simpl in *. lia. }
  unfold gettoken, loop_fuel. rewrite Hin, !gettoken_fuel_S, Hin, Hpos.
  rewrite (skip_whitespace_prefix ws rest) by (done || lia).
  destruct (skip_whitespace_ok (S (length (input l)) - length ws)
              (advance (after_chars ws l))
              (char_at (input l) (pos l + length ws)))
    as (l1 & ch1 & Heq & _).
  { simpl. rewrite Hin, Hpos. intros Hsp.
    apply isspace_nonnul, char_at_lt in Hsp. lia. }
  { simpl. rewrite Hin, Hpos. lia. }
  rewrite Heq.
  by rewrite (skip_whitespace_fuel _ (S (length (input l))) _ _ _ Heq) by lia.
Qed.

Lemma gettoken_skips_whitespace_witness :
  let l := {| input := String.list_ascii_of_string "x" ++ [" "%char; NEWLINE; " "%char]
                       ++ String.list_ascii_of_string "y;";
              pos := 1; cur_lineno := 1; cur_linepos := 1 |} in
  let ws := [" "%char; NEWLINE; " "%char] in
  gettoken 64 l (Token TOKEN_ILLEGAL [] 0 0 0 0)
  = gettoken 64 (after_chars ws l) (Token TOKEN_ILLEGAL [] 0 0 0 0)
  /\ pos (after_chars ws l) = pos l + length ws
  /\ cur_lineno (after_chars ws l)
     = cur_lineno l + length (filter (fun c => c = NEWLINE) ws).
Proof.
  apply (gettoken_skips_whitespace 64 [" "%char; NEWLINE; " "%char]
           (String.list_ascii_of_string "y;")).
  - repeat constructor.
  - reflexivity.
Defined.

(** X2.  A token records where it starts.  When the character at the cursor
    is not whitespace and does not start a comment, the token that
    [gettoken] returns carries the line number of the cursor and the column
    of that character (the column counter after reading it), whatever the
    kind of the token; the line number of the lexer is unchanged, also by a
    string that spans several lines. *)
Theorem gettoken_records_position (MAX_IDENT_LENGTH : nat)
    (l : lexer) (t : token) :
  MAX_IDENT_LENGTH <= LITERAL_SIZE ->
  isspace (char_at (input l) (pos l)) = false ->
  ~ (char_at (input l) (pos l) = "/"%char
     /\ char_at (input l) (S (pos l)) = "/"%char) ->
  exists l' t',
    gettoken MAX_IDENT_LENGTH l t = Ok (l', t')
    /\ line t' = cur_lineno l
    /\ tok_pos t' = S (cur_linepos l)
    /\ cur_lineno l' = cur_lineno l.
Proof.
  intros Hmax Hsp Hcomment.
  destruct (gettoken_ok MAX_IDENT_LENGTH Hmax l t) as (l' & t' & Heq & _).
  exists l', t'. split; [exact Heq|].
  unfold gettoken, loop_fuel in Heq. rewrite gettoken_fuel_S in Heq.
  simpl skip_whitespace in Heq. rewrite Hsp in Heq. cbn [bind] in Heq.
  apply lex_switch_inv in Heq
    as [(Hch & Hnext & _)|(_ & Hline & Hl & Hp & _)].
  - exfalso. apply Hcomment. split; [exact Hch|exact Hnext].
  - simpl in *. done.
Qed.

Lemma gettoken_records_position_witness :
  let l := {| input := String.list_ascii_of_string "let x = 1;";
              pos := 4; cur_lineno := 3; cur_linepos := 4 |} in
  exists l' t',
    gettoken 64 l (Token TOKEN_ILLEGAL [] 0 0 0 0) = Ok (l', t')
    /\ line t' = 3 /\ tok_pos t' = 5 /\ cur_lineno l' = 3.
Proof.
  apply (gettoken_records_position 64
           {| input := String.list_ascii_of_string "let x = 1;";
              pos := 4; cur_lineno := 3; cur_linepos := 4 |}
           (Token TOKEN_ILLEGAL [] 0 0 0 0)).
  - unfold LITERAL_SIZE. lia.
  - reflexivity.
  - intros [H _]. discriminate H.
Defined.

(** X3.  [gettoken] makes progress.  With [MAX_IDENT_LENGTH] at least 2 (and
    at most the size of the literal), every call returns with the input
    unchanged and the cursor at least one character further, at the end of
    the input too, where it steps over the terminator. *)
Theorem gettoken_advances (MAX_IDENT_LENGTH : nat) (l : lexer) (t : token) :
  2 <= MAX_IDENT_LENGTH -> MAX_IDENT_LENGTH <= LITERAL_SIZE ->
  exists l' t',
    gettoken MAX_IDENT_LENGTH l t = Ok (l', t')
    /\ input l' = input l
    /\ pos l < pos l'.
Proof.
  intros Hmin Hmax.
  destruct (gettoken_ok MAX_IDENT_LENGTH Hmax l t) as (l' & t' & Heq & _).
  exists l', t'. split; [exact Heq|].
  by apply (gettoken_fuel_inv MAX_IDENT_LENGTH _ _ t _ t' Hmin Heq).
Qed.

Lemma gettoken_advances_witness :
  let l := {| input := String.list_ascii_of_string "ab // c";
              pos := 2; cur_lineno := 1; cur_linepos := 2 |} in
  exists l' t',
    gettoken 64 l (Token TOKEN_ILLEGAL [] 0 0 0 0) = Ok (l', t')
    /\ input l' = input l
    /\ pos l < pos l'.
Proof.
  apply (gettoken_advances 64
           {| input := String.list_ascii_of_string "ab // c";
              pos := 2; cur_lineno := 1; cur_linepos := 2 |}
           (Token TOKEN_ILLEGAL [] 0 0 0 0)).
  - lia.
  - unfold LITERAL_SIZE. lia.
Defined.

(** With [MAX_IDENT_LENGTH] equal to 1 the loop of the default case stores
    nothing and the cursor is returned to where it was: a letter is never
    consumed. *)
Lemma gettoken_stuck_at_limit_one (pre rest : list ascii) (c : ascii)
    (lineno linepos : nat) (t : token) :
  is_letter c = true ->
  let l := {| input := pre ++ c :: rest; pos := length pre;
              cur_lineno := lineno; cur_linepos := linepos |} in
  exists t', gettoken 1 l t = Ok (l, t') /\ c_string (literal t') = [].
Proof.
  intros Hc l.
  assert (Hch : char_at (input l) (pos l) = c).
  { simpl. unfold char_at. rewrite app_nth2 by lia.
    by rewrite Nat.sub_diag. }
  unfold gettoken, loop_fuel. rewrite gettoken_fuel_S, Hch.
  simpl skip_whitespace.
  rewrite (word_not_space c) by (by rewrite Hc). cbn [bind].
  rewrite lex_switch_letter by done.
  unfold loop_fuel. simpl read_run. rewrite andb_false_r. cbn [bind].
  unfold literal_write. simpl. eexists. split; [reflexivity|].
  unfold get_ident. repeat case_match; reflexivity.
Qed.

(** ** Tokens read off known text *)

(** [gettoken] at a character that is not whitespace is the [switch] on
    that character. *)
Lemma gettoken_at (MAX_IDENT_LENGTH : nat) (l : lexer) (t : token) :
  isspace (char_at (input l) (pos l)) = false ->
  gettoken MAX_IDENT_LENGTH l t
  = lex_switch MAX_IDENT_LENGTH
      (gettoken_fuel MAX_IDENT_LENGTH (length (input l)))
      (char_at (input l) (pos l)) (advance l)
      (set_line_pos (advance l) (memset_literal t)).
Proof.
  intros Hsp. unfold gettoken, loop_fuel. rewrite gettoken_fuel_S.
  simpl skip_whitespace. by rewrite Hsp.
Qed.

Lemma type_get_ident (t1 t2 : token) :
  c_string (literal t1) = c_string (literal t2) ->
  type (get_ident t1) = type (get_ident t2).
Proof.
  intros H. unfold get_ident, strcmp_eq. rewrite H.
  repeat (case_bool_decide; [reflexivity|]). reflexivity.
Qed.

(** A run that ends before the limit: the loop stores all of it and the
    cursor is returned to the character that ended it. *)
Lemma read_run_stop (MAX_IDENT_LENGTH : nat) (cond : ascii -> bool)
    (g : token -> token) (run rest : list ascii) (l : lexer) (t : token)
    (ch : ascii) :
  char_at (input l) (pos l) = ch ->
  MAX_IDENT_LENGTH <= LITERAL_SIZE ->
  Forall (fun c => cond c = true) run ->
  length run <= MAX_IDENT_LENGTH - 1 ->
  cond (char_at rest 0) = false ->
  literal t = replicate LITERAL_SIZE NUL ->
  drop (pos l) (input l) = run ++ rest ->
  (let* (l', t, i) :=
     read_run MAX_IDENT_LENGTH cond (loop_fuel (advance l)) (advance l) t
              ch 0 in
   let* t := literal_write i NUL t in
   Ok (unread l', g t))
  = Ok (advance_by (length run) l,
        g (set_literal (run ++ replicate (LITERAL_SIZE - length run) NUL) t)).
Proof.
  intros <- Hmax Hrun Hshort Hstop Hlit Hdrop.
  set (n := length run) in *.
  assert (Hlen : n <= length (input l)).
  { apply (f_equal length) in Hdrop.
    rewrite length_drop, length_app in Hdrop. unfold n. lia. }
  assert (Hnext : char_at (input l) (pos l + n) = char_at rest 0).
  { rewrite <- char_at_drop, Hdrop. unfold char_at, n.
    rewrite app_nth2 by lia. by rewrite Nat.sub_diag. }
  rewrite (read_run_segment MAX_IDENT_LENGTH cond run rest); fold n.
  - replace (read_run _ _ _ _ _ _ _)
      with (Ok (A := lexer * token * nat)
              (advance (advance_by n l),
               set_literal (write_run 0 run (literal t)) t, n)).
    2:{ symmetry. rewrite Hnext. replace (0 + n) with n by lia.
        destruct (loop_fuel (advance l) - n); simpl;
          rewrite Hstop; reflexivity. }
    cbn [bind].
    rewrite Hlit. change (replicate LITERAL_SIZE NUL)
      with ([] ++ replicate LITERAL_SIZE NUL).
    change 0 with (length (@nil ascii)).
    rewrite write_run_blank by (fold n; unfold LITERAL_SIZE in *; lia).
    fold n. simpl app.
    rewrite literal_write_ok
      by (simpl; rewrite length_app, length_replicate; fold n;
          unfold LITERAL_SIZE in *; lia).
    cbn [bind]. do 3 f_equal.
    destruct t. unfold set_literal. simpl. f_equal.
    rewrite insert_app_r_alt by (fold n; lia). fold n. rewrite Nat.sub_diag.
    f_equal. destruct (LITERAL_SIZE - n) eqn:E;
      [unfold LITERAL_SIZE in *; lia|done].
  - done.
  - done.
  - lia.
  - rewrite Hlit, length_replicate. unfold LITERAL_SIZE in *. lia.
  - unfold loop_fuel. simpl. lia.
Qed.

Lemma c_string_blank_tail (cs : list ascii) (k : nat) :
  Forall (fun c => c <> NUL) cs ->
  c_string (cs ++ replicate k NUL) = cs.
Proof.
  induction 1 as [|c cs Hc _ IH]; simpl.
  - by destruct k.
  - destruct (Ascii.eqb_spec c NUL) as [->|_]; [done|]. by rewrite IH.
Qed.

(** X4.  Identifiers and keywords.  A run of letters, digits and
    underscores that starts with a letter or an underscore, is shorter than
    [MAX_IDENT_LENGTH] and is followed by another kind of character (or by
    the end of the input) is read as one token: its literal is the run, its
    type is what the keyword table gives for the whole run, and the cursor
    is left on the character after the run. *)
Theorem gettoken_reads_word (MAX_IDENT_LENGTH : nat)
    (pre run rest : list ascii) (lineno linepos : nat) (t : token) :
  MAX_IDENT_LENGTH <= LITERAL_SIZE ->
  is_letter (char_at run 0) = true ->
  Forall (fun c => is_letter c || isdigit c = true) run ->
  length run <= MAX_IDENT_LENGTH - 1 ->
  is_letter (char_at rest 0) || isdigit (char_at rest 0) = false ->
  let l := {| input := pre ++ run ++ rest; pos := length pre;
              cur_lineno := lineno; cur_linepos := linepos |} in
  exists t',
    gettoken MAX_IDENT_LENGTH l t = Ok (advance_by (length run) l, t')
    /\ c_string (literal t') = run
    /\ type t'
       = type (get_ident (Token TOKEN_ILLEGAL (run ++ [NUL]) 0 0 0 0)).
Proof.
  intros Hmax Hfirst Hrun Hshort Hstop l.
  assert (Hdrop : drop (pos l) (input l) = run ++ rest)
    by (simpl; by rewrite drop_app_length).
  destruct run as [|c run']; [discriminate Hfirst|].
  change (char_at (c :: run') 0) with c in Hfirst.
  assert (Hc : char_at (input l) (pos l) = c)
    by (apply (drop_cons_inv _ _ _ _ Hdrop)).
  assert (Hnul : Forall (fun c => c <> NUL) (c :: run')).
  { eapply Forall_impl; [exact Hrun|]. intros x Hx ->. discriminate Hx. }
  rewrite gettoken_at by (rewrite Hc; apply word_not_space; by rewrite Hfirst).
  rewrite Hc, lex_switch_letter by done.
  rewrite (read_run_stop MAX_IDENT_LENGTH _ get_ident (c :: run') rest)
    by done.
  eexists. split; [reflexivity|].
  assert (Hstr : c_string (literal (get_ident (set_literal
                   ((c :: run') ++ replicate (LITERAL_SIZE - length (c :: run')) NUL)
                   (set_line_pos (advance l) (memset_literal t)))))
                 = c :: run').
  { rewrite literal_get_ident.
    exact (c_string_blank_tail (c :: run') _ Hnul). }
  split; [exact Hstr|].
  apply type_get_ident. etrans.
  - exact (c_string_blank_tail (c :: run') _ Hnul).
  - symmetry. exact (c_string_app_nul (c :: run') [] Hnul).
Qed.

Lemma gettoken_reads_word_witness :
  let pre := String.list_ascii_of_string "x; " in
  let run := String.list_ascii_of_string "while" in
  let rest := String.list_ascii_of_string "(1)" in
  let l := {| input := pre ++ run ++ rest; pos := length pre;
              cur_lineno := 1; cur_linepos := 3 |} in
  exists t',
    gettoken 64 l (Token TOKEN_ILLEGAL [] 0 0 0 0)
    = Ok (advance_by (length run) l, t')
    /\ c_string (literal t') = run
    /\ type t'
       = type (get_ident (Token TOKEN_ILLEGAL (run ++ [NUL]) 0 0 0 0)).
Proof.
  apply (gettoken_reads_word 64 (String.list_ascii_of_string "x; ")
           (String.list_ascii_of_string "while")
           (String.list_ascii_of_string "(1)") 1 3
           (Token TOKEN_ILLEGAL [] 0 0 0 0)).
  - unfold LITERAL_SIZE. lia.
  - reflexivity.
  - repeat constructor.
  - simpl. lia.
  - reflexivity.
Defined.

(** X5.  Integer literals.  A run of digits that is shorter than
    [MAX_IDENT_LENGTH] and is followed by a character that is not a digit
    (a letter included) or by the end of the input is read as one
    [TOKEN_INT] whose literal is the run; the cursor is left on the
    character after the run. *)
Theorem gettoken_reads_int (MAX_IDENT_LENGTH : nat)
    (pre run rest : list ascii) (lineno linepos : nat) (t : token) :
  MAX_IDENT_LENGTH <= LITERAL_SIZE ->
  run <> [] ->
  Forall (fun c => isdigit c = true) run ->
  length run <= MAX_IDENT_LENGTH - 1 ->
  isdigit (char_at rest 0) = false ->
  let l := {| input := pre ++ run ++ rest; pos := length pre;
              cur_lineno := lineno; cur_linepos := linepos |} in
  exists t',
    gettoken MAX_IDENT_LENGTH l t = Ok (advance_by (length run) l, t')
    /\ c_string (literal t') = run
    /\ type t' = TOKEN_INT.
Proof.
  intros Hmax Hne Hrun Hshort Hstop l.
  assert (Hdrop : drop (pos l) (input l) = run ++ rest)
    by (simpl; by rewrite drop_app_length).
  destruct run as [|c run']; [done|].
  assert (Hc : char_at (input l) (pos l) = c)
    by (apply (drop_cons_inv _ _ _ _ Hdrop)).
  assert (Hd : isdigit c = true) by (by inversion Hrun).
  assert (Hnul : Forall (fun c => c <> NUL) (c :: run')).
  { eapply Forall_impl; [exact Hrun|]. intros x Hx ->. discriminate Hx. }
  rewrite gettoken_at
    by (rewrite Hc; apply word_not_space; rewrite Hd; apply orb_true_r).
  rewrite Hc, lex_switch_digit by done.
  rewrite (read_run_stop MAX_IDENT_LENGTH _ (set_type TOKEN_INT) (c :: run') rest)
    by done.
  eexists. split; [reflexivity|]. split; [|reflexivity].
  exact (c_string_blank_tail (c :: run') _ Hnul).
Qed.

Lemma gettoken_reads_int_witness :
  let pre := String.list_ascii_of_string "x = " in
  let run := String.list_ascii_of_string "123" in
  let rest := String.list_ascii_of_string "abc" in
  let l := {| input := pre ++ run ++ rest; pos := length pre;
              cur_lineno := 1; cur_linepos := 4 |} in
  exists t',
    gettoken 64 l (Token TOKEN_ILLEGAL [] 0 0 0 0)
    = Ok (advance_by (length run) l, t')
    /\ c_string (literal t') = run
    /\ type t' = TOKEN_INT.
Proof.
  apply (gettoken_reads_int 64 (String.list_ascii_of_string "x = ")
           (String.list_ascii_of_string "123")
           (String.list_ascii_of_string "abc") 1 4
           (Token TOKEN_ILLEGAL [] 0 0 0 0)).
  - unfold LITERAL_SIZE. lia.
  - discriminate.
  - repeat constructor.
  - simpl. lia.
  - reflexivity.
Defined.

(** X6.  The comparison operators take the longest match.  At [=], [!],
    [<] or [>], [gettoken] looks one character ahead: followed by [=] the
    two characters are one token ([==], [!=], [<=], [>=]) and the cursor
    moves past both; followed by anything else the character is a token of
    its own and the cursor moves past it alone. *)
Theorem gettoken_comparison_operators (MAX_IDENT_LENGTH : nat)
    (l : lexer) (t : token) (c : ascii) (single double : token_type) :
  In (c, single, double)
     [("="%char, TOKEN_ASSIGN, TOKEN_EQ); ("!"%char, TOKEN_BANG, TOKEN_NOT_EQ);
      ("<"%char, TOKEN_LT, TOKEN_LTE); (">"%char, TOKEN_GT, TOKEN_GTE)] ->
  char_at (input l) (pos l) = c ->
  exists t',
    gettoken MAX_IDENT_LENGTH l t
    = Ok (if Ascii.eqb (char_at (input l) (S (pos l))) "="
          then advance (advance l) else advance l, t')
    /\ type t'
       = (if Ascii.eqb (char_at (input l) (S (pos l))) "="
          then double else single)
    /\ c_string (literal t')
       = (if Ascii.eqb (char_at (input l) (S (pos l))) "="
          then [c; "="%char] else [c]).
Proof.
  intros Hin Hc. simpl in Hin.
  destruct Hin as [H|[H|[H|[H|[]]]]]; injection H as <- <- <-;
    (rewrite gettoken_at by (by rewrite Hc)); rewrite Hc;
    unfold lex_switch; cbv beta iota zeta; simpl pos; simpl input;
    destruct (Ascii.eqb (char_at (input l) (S (pos l))) "=");
    (eexists; split; [reflexivity|split; reflexivity]).
Qed.

Lemma gettoken_comparison_operators_witness :
  let l := {| input := String.list_ascii_of_string "a<=b"; pos := 1;
              cur_lineno := 1; cur_linepos := 1 |} in
  exists t',
    gettoken 64 l (Token TOKEN_ILLEGAL [] 0 0 0 0)
    = Ok (if Ascii.eqb (char_at (input l) (S (pos l))) "="
          then advance (advance l) else advance l, t')
    /\ type t'
       = (if Ascii.eqb (char_at (input l) (S (pos l))) "="
          then TOKEN_LTE else TOKEN_LT)
    /\ c_string (literal t')
       = (if Ascii.eqb (char_at (input l) (S (pos l))) "="
          then ["<"%char; "="%char] else ["<"%char]).
Proof.
  apply (gettoken_comparison_operators 64
           {| input := String.list_ascii_of_string "a<=b"; pos := 1;
              cur_lineno := 1; cur_linepos := 1 |}
           (Token TOKEN_ILLEGAL [] 0 0 0 0) "<"%char TOKEN_LT TOKEN_LTE).
  - right. right. left. reflexivity.
  - reflexivity.
Defined.

(** X7.  A single [&] or [|] gives no token type.  Doubled, the character
    is [TOKEN_AND] or [TOKEN_OR].  Followed by anything else, [gettoken]
    consumes the one character, leaves the literal empty and does not set
    the type: the token keeps the type that the caller's token had before
    the call (it is not [TOKEN_ILLEGAL] unless it was before). *)
Theorem gettoken_single_ampersand_or_bar (MAX_IDENT_LENGTH : nat)
    (l : lexer) (t : token) (c : ascii) (double : token_type) :
  In (c, double) [("&"%char, TOKEN_AND); ("|"%char, TOKEN_OR)] ->
  char_at (input l) (pos l) = c ->
  exists t',
    gettoken MAX_IDENT_LENGTH l t
    = Ok (if Ascii.eqb (char_at (input l) (S (pos l))) c
          then advance (advance l) else advance l, t')
    /\ type t'
       = (if Ascii.eqb (char_at (input l) (S (pos l))) c
          then double else type t)
    /\ c_string (literal t')
       = (if Ascii.eqb (char_at (input l) (S (pos l))) c
          then [c; c] else []).
Proof.
  intros Hin Hc. simpl in Hin.
  destruct Hin as [H|[H|[]]]; injection H as <- <-;
    (rewrite gettoken_at by (by rewrite Hc)); rewrite Hc;
    unfold lex_switch; cbv beta iota zeta; simpl pos; simpl input;
    destruct (Ascii.eqb (char_at (input l) (S (pos l))) _);
    (eexists; split; [reflexivity|split; reflexivity]).
Qed.

Lemma gettoken_single_ampersand_or_bar_witness :
  let l := {| input := String.list_ascii_of_string "a & b"; pos := 2;
              cur_lineno := 1; cur_linepos := 2 |} in
  let t := Token TOKEN_IDENT (String.list_ascii_of_string "a") 0 0 1 1 in
  exists t',
    gettoken 64 l t
    = Ok (if Ascii.eqb (char_at (input l) (S (pos l))) "&"
          then advance (advance l) else advance l, t')
    /\ type t'
       = (if Ascii.eqb (char_at (input l) (S (pos l))) "&"
          then TOKEN_AND else type t)
    /\ c_string (literal t')
       = (if Ascii.eqb (char_at (input l) (S (pos l))) "&"
          then ["&"%char; "&"%char] else []).
Proof.
  apply (gettoken_single_ampersand_or_bar 64
           {| input := String.list_ascii_of_string "a & b"; pos := 2;
              cur_lineno := 1; cur_linepos := 2 |}
           (Token TOKEN_IDENT (String.list_ascii_of_string "a") 0 0 1 1)
           "&"%char TOKEN_AND).
  - left. reflexivity.
  - reflexivity.
Defined.

Lemma last_char_cons (prev c : ascii) (body : list ascii) :
  last_char prev (c :: body) = last_char c body.
Proof.
  unfold last_char. revert prev c.
  induction body as [|b body IH]; intros prev c; [done|].
  change (List.last (c :: b :: body) prev) with (List.last (b :: body) prev).
  by rewrite !IH.
Qed.

(** The string loop over a known body. *)
Lemma read_string_exact (body : list ascii) (prev : ascii) (fuel : nat)
    (l : lexer) :
  char_at (input l) (pos l - 1) = prev ->
  inside_string prev body = true ->
  take (length body) (drop (pos l) (input l)) = body ->
  char_at (input l) (pos l + length body) = NUL
  \/ (char_at (input l) (pos l + length body) = DQUOTE
      /\ last_char prev body <> BACKSLASH) ->
  length body < fuel ->
  read_string fuel l = Ok (advance_by (S (length body)) l).
Proof.
  revert prev fuel l.
  induction body as [|c body IH]; intros prev fuel l Hprev Hin Htake Hstop Hfuel;
    (destruct fuel as [|fuel]; [simpl in Hfuel; lia|]); simpl.
  - rewrite Nat.add_0_r in Hstop.
    replace (advance_by 1 l) with (snd (next_char l))
      by (unfold advance_by; simpl; f_equal; lia).
    simpl. rewrite Hprev.
    destruct Hstop as [->|[-> Hlast]]; [done|].
    simpl in Hlast. destruct (Ascii.eqb_spec prev BACKSLASH); done.
  - simpl in Hin, Htake, Hfuel.
    destruct (drop (pos l) (input l)) as [|c0 tail] eqn:Hdrop;
      [discriminate Htake|].
    injection Htake as -> Htake.
    apply drop_cons_inv in Hdrop as [Hch Hdrop].
    apply andb_true_iff in Hin as [Hin Hrest].
    apply andb_true_iff in Hin as [Hnul Hquote].
    rewrite Hch, Hprev.
    destruct (Ascii.eqb c NUL); [done|]. simpl.
    replace (Ascii.eqb c DQUOTE && negb (Ascii.eqb prev BACKSLASH))
      with false
      by (destruct (Ascii.eqb c DQUOTE), (Ascii.eqb prev BACKSLASH); done).
    etrans; [apply (IH c fuel (snd (next_char l))); simpl|].
    + by rewrite Nat.sub_0_r.
    + done.
    + by rewrite Hdrop.
    + rewrite last_char_cons in Hstop. simpl in Hstop.
      by replace (pos l + S (length body)) with (S (pos l + length body))
        in Hstop by lia.
    + lia.
    + unfold advance_by. simpl. do 2 f_equal; lia.
Qed.

(** X8.  String literals.  At an opening quote, with a body in which no
    character is the terminator and every quote follows a backslash,
    [gettoken] returns a [TOKEN_STRING] whose [start] is the offset of the
    first character of the body and whose [end] is the offset where the
    body ends.  The body ends at the first quote that does not follow a
    backslash, and the cursor is left after that quote; or, when the string
    is not closed, at the terminator of the input, and the cursor is left
    one past the terminator.  In both cases the literal of the token is
    empty, no error is reported, and the line counter does not move. *)
Theorem gettoken_reads_string (MAX_IDENT_LENGTH : nat)
    (body : list ascii) (l : lexer) (t : token) :
  char_at (input l) (pos l) = DQUOTE ->
  inside_string DQUOTE body = true ->
  take (length body) (drop (S (pos l)) (input l)) = body ->
  char_at (input l) (S (pos l) + length body) = NUL
  \/ (char_at (input l) (S (pos l) + length body) = DQUOTE
      /\ last_char DQUOTE body <> BACKSLASH) ->
  exists t',
    gettoken MAX_IDENT_LENGTH l t
    = Ok (advance_by (length body + 2) l, t')
    /\ type t' = TOKEN_STRING
    /\ start t' = S (pos l)
    /\ end_ t' = S (pos l) + length body
    /\ take (end_ t' - start t') (drop (start t') (input l)) = body
    /\ c_string (literal t') = [].
Proof.
  intros Hq Hin Htake Hstop.
  rewrite gettoken_at by (by rewrite Hq).
  rewrite Hq. unfold lex_switch. cbv beta iota zeta.
  rewrite (read_string_exact body DQUOTE); simpl.
  - cbn [bind]. eexists. split.
    + do 2 f_equal. unfold advance_by. simpl. f_equal; lia.
    + simpl. split_and!; try done; try lia.
      replace (pos l + S (length body) - 0 - S (pos l)) with (length body)
        by lia.
      exact Htake.
  - by rewrite Nat.sub_0_r.
  - done.
  - done.
  - done.
  - unfold loop_fuel. simpl.
    apply (f_equal length) in Htake. rewrite length_take, length_drop in Htake.
    lia.
Qed.

Lemma gettoken_reads_string_witness :
  let body := ["a"%char; BACKSLASH; DQUOTE; " "%char; "+"%char] in
  let l := {| input := String.list_ascii_of_string "x = " ++ DQUOTE :: body
                       ++ DQUOTE :: String.list_ascii_of_string ";";
              pos := 4; cur_lineno := 1; cur_linepos := 4 |} in
  exists t',
    gettoken 64 l (Token TOKEN_ILLEGAL [] 0 0 0 0)
    = Ok (advance_by (length body + 2) l, t')
    /\ type t' = TOKEN_STRING
    /\ start t' = S (pos l)
    /\ end_ t' = S (pos l) + length body
    /\ take (end_ t' - start t') (drop (start t') (input l)) = body
    /\ c_string (literal t') = [].
Proof.
  apply (gettoken_reads_string 64
           ["a"%char; BACKSLASH; DQUOTE; " "%char; "+"%char]
           {| input := String.list_ascii_of_string "x = " ++ DQUOTE
                       :: ["a"%char; BACKSLASH; DQUOTE; " "%char; "+"%char]
                       ++ DQUOTE :: String.list_ascii_of_string ";";
              pos := 4; cur_lineno := 1; cur_linepos := 4 |}
           (Token TOKEN_ILLEGAL [] 0 0 0 0)).
  - reflexivity.
  - reflexivity.
  - reflexivity.
  - right. split; [reflexivity|discriminate].
Defined.

(** X9.  The end of the input.  When nothing but whitespace is left at the
    cursor, [gettoken] returns [TOKEN_EOF] with an empty literal and the
    line and the column of the terminator, as counted over that whitespace,
    and leaves the cursor one past the terminator. *)
Theorem gettoken_at_end_of_input (MAX_IDENT_LENGTH : nat)
    (ws : list ascii) (l : lexer) (t : token) :
  Forall (fun c => isspace c = true) ws ->
  drop (pos l) (input l) = ws ->
  exists t',
    gettoken MAX_IDENT_LENGTH l t = Ok (advance (after_chars ws l), t')
    /\ type t' = TOKEN_EOF
    /\ c_string (literal t') = []
    /\ line t' = cur_lineno (after_chars ws l)
    /\ tok_pos t' = S (cur_linepos (after_chars ws l)).
Proof.
  intros Hws Hdrop.
  assert (Hlen : length ws <= length (input l)).
  { apply (f_equal length) in Hdrop. rewrite length_drop in Hdrop. lia. }
  assert (Hnul : char_at (input l) (pos l + length ws) = NUL).
  { rewrite <- char_at_drop, Hdrop. unfold char_at. by apply nth_overflow. }
  unfold gettoken, loop_fuel. rewrite gettoken_fuel_S.
  rewrite (skip_whitespace_prefix ws [])
    by (done || (by rewrite app_nil_r) || lia).
  rewrite Hnul.
  replace (skip_whitespace _ _ NUL)
    with (Ok (A := lexer * ascii) (advance (after_chars ws l), NUL))
    by (by destruct (S (length (input l)) - length ws)).
  cbn [bind]. unfold lex_switch. cbv beta iota zeta.
  eexists. split; [reflexivity|]. split_and!; reflexivity.
Qed.

Lemma gettoken_at_end_of_input_witness :
  let l := {| input := String.list_ascii_of_string "x;" ++ [" "%char; NEWLINE];
              pos := 2; cur_lineno := 1; cur_linepos := 2 |} in
  let ws := [" "%char; NEWLINE] in
  exists t',
    gettoken 64 l (Token TOKEN_ILLEGAL [] 0 0 0 0)
    = Ok (advance (after_chars ws l), t')
    /\ type t' = TOKEN_EOF
    /\ c_string (literal t') = []
    /\ line t' = cur_lineno (after_chars ws l)
    /\ tok_pos t' = S (cur_linepos (after_chars ws l)).
Proof.
  apply (gettoken_at_end_of_input 64 [" "%char; NEWLINE]
           {| input := String.list_ascii_of_string "x;" ++ [" "%char; NEWLINE];
              pos := 2; cur_lineno := 1; cur_linepos := 2 |}
           (Token TOKEN_ILLEGAL [] 0 0 0 0)).
  - repeat constructor.
  - reflexivity.
Defined.

(** X10.  Characters that start no token.  A character that is not
    whitespace, not a letter, an underscore or a digit, not the terminator,
    and none of the punctuation characters of the [switch] is consumed
    alone and returned as [TOKEN_ILLEGAL], with the character as the
    literal: [gettoken] reports it in the token and goes on. *)
Theorem gettoken_illegal_character (MAX_IDENT_LENGTH : nat)
    (l : lexer) (t : token) (c : ascii) :
  char_at (input l) (pos l) = c ->
  isspace c = false -> is_letter c = false -> isdigit c = false ->
  c <> NUL ->
  ~ In c (String.list_ascii_of_string "=;:(),+-!/*<>{}[]%|&" ++ [DQUOTE]) ->
  exists t',
    gettoken MAX_IDENT_LENGTH l t = Ok (advance l, t')
    /\ type t' = TOKEN_ILLEGAL
    /\ c_string (literal t') = [c].
Proof.
  intros Hc Hsp Hl Hd Hnul Hpunct.
  rewrite gettoken_at by (by rewrite Hc). rewrite Hc. clear Hc.
  destruct c as [[] [] [] [] [] [] [] []];
    vm_compute in Hsp, Hl, Hd; try discriminate Hsp; try discriminate Hl;
    try discriminate Hd; clear Hsp Hl Hd;
    first
      [ by (eexists; split; [reflexivity|split; reflexivity])
      | by (exfalso; apply Hpunct; simpl;
            repeat (first [left; reflexivity | right]))
      | exfalso; by apply Hnul ].
Qed.

Lemma gettoken_illegal_character_witness :
  let l := {| input := String.list_ascii_of_string "a @ b"; pos := 2;
              cur_lineno := 1; cur_linepos := 2 |} in
  exists t',
    gettoken 64 l (Token TOKEN_ILLEGAL [] 0 0 0 0) = Ok (advance l, t')
    /\ type t' = TOKEN_ILLEGAL
    /\ c_string (literal t') = ["@"%char].
Proof.
  apply (gettoken_illegal_character 64
           {| input := String.list_ascii_of_string "a @ b"; pos := 2;
              cur_lineno := 1; cur_linepos := 2 |}
           (Token TOKEN_ILLEGAL [] 0 0 0 0) "@"%char).
  - reflexivity.
  - reflexivity.
  - reflexivity.
  - reflexivity.
  - discriminate.
  - simpl. intros H.
    repeat (destruct H as [H|H]; [discriminate H|]). exact H.
Defined.

(** ** The second lexer *)

Lemma next_tok_skip_space_ok (fuel : nat) (lex : NextTok.Lex) (ch : ascii) :
  (isspace ch = true -> NextTok.pos lex <= length (NextTok.in_ lex)) ->
  length (NextTok.in_ lex) < fuel + NextTok.pos lex ->
  exists lex' ch',
    NextTok.skip_space fuel lex ch = Ok (lex', ch')
    /\ NextTok.in_ lex' = NextTok.in_ lex
    /\ NextTok.pos lex <= NextTok.pos lex'
    /\ isspace ch' = false.
Proof.
  revert lex ch. induction fuel as [|fuel IH]; intros lex ch Hch Hfuel; simpl.
  - destruct (isspace ch) eqn:Hsp; [specialize (Hch eq_refl); lia|]. eauto 10.
  - destruct (isspace ch) eqn:Hsp; [|eauto 10].
    set (lex1 := NextTok.check_line_advance lex ch).
    assert (Hin : NextTok.in_ lex1 = NextTok.in_ lex
                  /\ NextTok.pos lex1 = NextTok.pos lex).
    { unfold lex1, NextTok.check_line_advance.
      by destruct (Ascii.eqb ch NEWLINE). }
    destruct Hin as [Hin Hpos].
    destruct (IH (snd (NextTok.next_ch lex1))
                 (char_at (NextTok.in_ lex1) (NextTok.pos lex1)))
      as (lex' & ch' & Heq & Hin' & Hpos' & Hsp'); simpl.
    + intros Hs. apply isspace_nonnul, char_at_lt in Hs. lia.
    + rewrite Hin, Hpos. lia.
    + exists lex', ch'. simpl in *. split; [exact Heq|].
      split_and!; [congruence|lia|done].
Qed.

Lemma next_tok_read_str_ok (fuel : nat) (lex : NextTok.Lex) :
  1 <= fuel -> length (NextTok.in_ lex) < fuel + NextTok.pos lex ->
  exists lex' ch',
    NextTok.read_str fuel lex = Ok (lex', ch')
    /\ NextTok.in_ lex' = NextTok.in_ lex
    /\ NextTok.pos lex < NextTok.pos lex'.
Proof.
  revert lex. induction fuel as [|fuel IH]; intros lex H1 Hfuel; [lia|].
  simpl.
  set (ch := char_at (NextTok.in_ lex) (NextTok.pos lex)).
  set (lex1 := NextTok.check_line_advance _ ch).
  assert (Hin : NextTok.in_ lex1 = NextTok.in_ lex
                /\ NextTok.pos lex1 = S (NextTok.pos lex)).
  { unfold lex1, NextTok.check_line_advance.
    by destruct (Ascii.eqb ch NEWLINE). }
  destruct Hin as [Hin Hpos]. clearbody lex1.
  destruct (Ascii.eqb_spec ch NUL) as [E|E].
  { rewrite andb_false_r. eexists _, _. split; [reflexivity|].
    split; [exact Hin|rewrite Hpos; lia]. }
  destruct (Ascii.eqb ch DQUOTE); simpl.
  { eexists _, _. split; [reflexivity|].
    split; [exact Hin|rewrite Hpos; lia]. }
  apply char_at_lt in E.
  destruct (IH lex1) as (lex' & ch' & Heq & Hin' & Hpos');
    [lia|rewrite Hin, Hpos; lia|].
  exists lex', ch'. split; [exact Heq|]. split; [congruence|lia].
Qed.

Lemma next_tok_eq (lex : NextTok.Lex) :
  NextTok.next_tok lex
  = let* (lex1, ch) :=
      NextTok.skip_space (S (length (NextTok.in_ lex)))
        (snd (NextTok.next_ch lex))
        (char_at (NextTok.in_ lex) (NextTok.pos lex)) in
    NextTok.tok_switch ch lex1.
Proof. reflexivity. Qed.

(** X11.  [next_tok] returns on every input, leaves the text unchanged and
    moves the cursor at least one character further, at the end of the
    input too, where it steps over the terminator. *)
Theorem next_tok_advances (lex : NextTok.Lex) :
  exists tok lex',
    NextTok.next_tok lex = Ok (tok, lex')
    /\ NextTok.in_ lex' = NextTok.in_ lex
    /\ NextTok.pos lex < NextTok.pos lex'.
Proof.
  rewrite next_tok_eq.
  destruct (next_tok_skip_space_ok
              (S (length (NextTok.in_ lex)))
              (snd (NextTok.next_ch lex))
              (char_at (NextTok.in_ lex) (NextTok.pos lex)))
    as (lex1 & ch1 & -> & Hin & Hpos & _).
  { simpl. intros Hs. apply isspace_nonnul, char_at_lt in Hs. lia. }
  { simpl. lia. }
  simpl in Hin, Hpos. cbn [bind]. unfold NextTok.tok_switch.
  assert (Hif : forall c ty1 ty2 tok,
            exists tok' lex',
              (let '(b, lex0) := NextTok.next_if lex1 c in
               Ok (NextTok.set_type (if b then ty1 else ty2) tok, lex0))
              = Ok (tok', lex')
              /\ NextTok.in_ lex' = NextTok.in_ lex
              /\ NextTok.pos lex < NextTok.pos lex').
  { intros c ty1 ty2 tok. unfold NextTok.next_if.
    destruct (Ascii.eqb _ c); simpl; eexists _, _;
      (split; [reflexivity|]); simpl; split; try done; lia. }
  destruct ch1 as [[] [] [] [] [] [] [] []];
    try (eexists _, _; split; [reflexivity|]; split; [exact Hin|lia]);
    try apply Hif.
  destruct (next_tok_read_str_ok (NextTok.loop_fuel lex1) lex1)
    as (lex2 & ch2 & -> & Hin2 & Hpos2); [unfold NextTok.loop_fuel; lia..|].
  cbn [bind]. destruct (Ascii.eqb ch2 NUL).
  { eexists _, _. split; [reflexivity|]. split; [congruence|lia]. }
  unfold NextTok.copy_literal.
  destruct (Nat.ltb_spec (NextTok.pos lex2 - NextTok.pos lex1 - 1)
              (NextTok.pos lex2 - NextTok.pos lex1)); [|lia].
  cbn [bind]. eexists _, _. split; [reflexivity|]. split; [congruence|lia].
Qed.

Lemma next_tok_after_char_in (lex : NextTok.Lex) (c : ascii) :
  NextTok.in_ (NextTok.after_char lex c) = NextTok.in_ lex
  /\ NextTok.pos (NextTok.after_char lex c) = S (NextTok.pos lex).
Proof.
  unfold NextTok.after_char, NextTok.check_line_advance.
  by destruct (Ascii.eqb c NEWLINE).
Qed.

Lemma next_tok_after_chars_in (cs : list ascii) (lex : NextTok.Lex) :
  NextTok.in_ (NextTok.after_chars cs lex) = NextTok.in_ lex
  /\ NextTok.pos (NextTok.after_chars cs lex) = NextTok.pos lex + length cs.
Proof.
  unfold NextTok.after_chars. revert lex.
  induction cs as [|c cs IH]; intros lex; simpl.
  - split; [done|lia].
  - destruct (IH (NextTok.after_char lex c)) as [-> ->].
    destruct (next_tok_after_char_in lex c) as [-> ->]. split; [done|lia].
Qed.

Lemma next_tok_after_chars_line (cs : list ascii) (lex : NextTok.Lex) :
  NextTok.line (NextTok.text_pos (NextTok.after_chars cs lex))
  = NextTok.line (NextTok.text_pos lex)
    + length (filter (fun c => c = NEWLINE) cs).
Proof.
  unfold NextTok.after_chars. revert lex.
  induction cs as [|c cs IH]; intros lex.
  - simpl. lia.
  - cbn [foldl]. rewrite IH, filter_cons.
    unfold NextTok.after_char, NextTok.check_line_advance.
    destruct (decide (c = NEWLINE)) as [->|Hne].
    + simpl. lia.
    + destruct (Ascii.eqb_spec c NEWLINE) as [|_]; [done|]. simpl. lia.
Qed.

Lemma next_tok_skip_space_fuel (fuel fuel' : nat) (lex : NextTok.Lex)
    (ch : ascii) r :
  NextTok.skip_space fuel lex ch = Ok r -> fuel <= fuel' ->
  NextTok.skip_space fuel' lex ch = Ok r.
Proof.
  revert fuel' lex ch. induction fuel as [|fuel IH]; intros fuel' lex ch H Hle.
  - destruct fuel'; simpl in *; destruct (isspace ch); done.
  - destruct fuel' as [|fuel']; [lia|]. simpl in *.
    destruct (isspace ch); [|done]. apply IH; [done|lia].
Qed.

Lemma next_tok_skip_space_prefix (ws rest : list ascii) (fuel : nat)
    (lex : NextTok.Lex) :
  Forall (fun w => isspace w = true) ws ->
  drop (NextTok.pos lex) (NextTok.in_ lex) = ws ++ rest ->
  length ws <= fuel ->
  NextTok.skip_space fuel (snd (NextTok.next_ch lex))
    (char_at (NextTok.in_ lex) (NextTok.pos lex))
  = NextTok.skip_space (fuel - length ws)
      (snd (NextTok.next_ch (NextTok.after_chars ws lex)))
      (char_at (NextTok.in_ lex) (NextTok.pos lex + length ws)).
Proof.
  intros Hws. revert fuel lex.
  induction Hws as [|w ws Hw _ IH]; intros fuel lex Hdrop Hfuel.
  - simpl. by rewrite Nat.sub_0_r, Nat.add_0_r.
  - simpl in Hdrop, Hfuel. apply drop_cons_inv in Hdrop as [Hch Hdrop].
    destruct fuel as [|fuel]; [lia|].
    destruct (next_tok_after_char_in lex w) as [Hin Hpos].
    cbn [NextTok.skip_space]. rewrite Hch, Hw.
    etrans; [apply (IH fuel (NextTok.after_char lex w));
             [by rewrite Hin, Hpos|lia]|].
    rewrite Hin, Hpos. simpl length.
    by replace (S (NextTok.pos lex) + length ws)
      with (NextTok.pos lex + S (length ws)) by lia.
Qed.

(** X12.  Whitespace in front of a token only moves the cursor of
    [next_tok], too: with the whitespace [ws] at the cursor, [next_tok]
    returns what it returns from the lexer that has read [ws], in which
    every newline of [ws] has added one to the line and reset the column. *)
Theorem next_tok_skips_whitespace (ws rest : list ascii) (lex : NextTok.Lex) :
  Forall (fun c => isspace c = true) ws ->
  drop (NextTok.pos lex) (NextTok.in_ lex) = ws ++ rest ->
  NextTok.next_tok lex = NextTok.next_tok (NextTok.after_chars ws lex)
  /\ NextTok.pos (NextTok.after_chars ws lex) = NextTok.pos lex + length ws
  /\ NextTok.line (NextTok.text_pos (NextTok.after_chars ws lex))
     = NextTok.line (NextTok.text_pos lex)
       + length (filter (fun c => c = NEWLINE) ws).
Proof.
  intros Hws Hdrop.
  destruct (next_tok_after_chars_in ws lex) as [Hin Hpos].
  split; [|split; [done|apply next_tok_after_chars_line]].
  destruct ws as [|w ws'] eqn:Ews; [done|]. rewrite <- Ews in *.
  assert (Hlt : NextTok.pos lex + length ws <= length (NextTok.in_ lex)
                /\ 0 < length ws).
  { apply (f_equal length) in Hdrop.
    rewrite length_drop, length_app in Hdrop. subst ws. simpl in *. lia. }
  rewrite !next_tok_eq, Hin, Hpos.
  rewrite (next_tok_skip_space_prefix ws rest) by (done || lia).
  destruct (next_tok_skip_space_ok (S (length (NextTok.in_ lex)) - length ws)
              (snd (NextTok.next_ch (NextTok.after_chars ws lex)))
              (char_at (NextTok.in_ lex) (NextTok.pos lex + length ws)))
    as (lex1 & ch1 & Heq & _).
  { simpl. rewrite Hin, Hpos. intros Hsp.
    apply isspace_nonnul, char_at_lt in Hsp. lia. }
  { simpl. rewrite Hin, Hpos. lia. }
  rewrite Heq.
  by rewrite (next_tok_skip_space_fuel _ (S (length (NextTok.in_ lex)))
                _ _ _ Heq) by lia.
Qed.

Lemma next_tok_skips_whitespace_witness :
  let lex := {| NextTok.in_ := ["("%char; " "%char; NEWLINE; " "%char; ")"%char];
                NextTok.pos := 1;
                NextTok.text_pos := {| NextTok.line := 1; NextTok.column := 1 |} |} in
  let ws := [" "%char; NEWLINE; " "%char] in
  NextTok.next_tok lex = NextTok.next_tok (NextTok.after_chars ws lex)
  /\ NextTok.pos (NextTok.after_chars ws lex) = NextTok.pos lex + length ws
  /\ NextTok.line (NextTok.text_pos (NextTok.after_chars ws lex))
     = NextTok.line (NextTok.text_pos lex)
       + length (filter (fun c => c = NEWLINE) ws).
Proof.
  apply (next_tok_skips_whitespace [" "%char; NEWLINE; " "%char] [")"%char]).
  - repeat constructor.
  - reflexivity.
Defined.

(** X13.  The two-character operators of [next_tok].  At [=], [!], [>],
    [<], [&] or [|], the function looks one character ahead.  With the
    second character of the operator there, the token is the long operator
    and both characters are consumed; otherwise one character is consumed
    and the token is the short operator, which for a single [&] or [|] is
    [TOK_ILLEGAL].  The token carries the line of the lexer and the column
    of its first character, and no literal. *)
Theorem next_tok_operators (lex : NextTok.Lex) (c second : ascii)
    (short long : NextTok.tok_type) :
  In (c, second, short, long)
     [("="%char, "="%char, NextTok.TOK_ASSIGN, NextTok.TOK_EQ);
      ("!"%char, "="%char, NextTok.TOK_NOT, NextTok.TOK_NEQ);
      (">"%char, "="%char, NextTok.TOK_GT, NextTok.TOK_GTEQ);
      ("<"%char, "="%char, NextTok.TOK_LT, NextTok.TOK_LTEQ);
      ("&"%char, "&"%char, NextTok.TOK_ILLEGAL, NextTok.TOK_AND);
      ("|"%char, "|"%char, NextTok.TOK_ILLEGAL, NextTok.TOK_OR)] ->
  char_at (NextTok.in_ lex) (NextTok.pos lex) = c ->
  let lex1 := snd (NextTok.next_ch lex) in
  let found := Ascii.eqb (char_at (NextTok.in_ lex) (S (NextTok.pos lex))) second in
  NextTok.next_tok lex
  = Ok ({| NextTok.type := if found then long else short;
           NextTok.tok_text_pos := NextTok.text_pos lex1;
           NextTok.literal_str := None |},
        if found then snd (NextTok.next_ch lex1) else lex1).
Proof.
  intros Hin Hc lex1 found. simpl in Hin.
  rewrite next_tok_eq, Hc.
  destruct Hin as [H|[H|[H|[H|[H|[H|[]]]]]]]; injection H as <- <- <- <-;
    subst lex1 found; simpl NextTok.skip_space; cbn [bind];
    unfold NextTok.tok_switch, NextTok.next_if; cbv beta iota zeta; simpl;
    match goal with
    | |- context [Ascii.eqb (char_at (NextTok.in_ lex) (S (NextTok.pos lex))) ?d] =>
        destruct (Ascii.eqb_spec
                    (char_at (NextTok.in_ lex) (S (NextTok.pos lex))) d)
          as [E|E]
    end;
    rewrite ?E; reflexivity.
Qed.

Lemma next_tok_operators_witness :
  let lex := {| NextTok.in_ := String.list_ascii_of_string "a&b";
                NextTok.pos := 1;
                NextTok.text_pos := {| NextTok.line := 1; NextTok.column := 1 |} |} in
  let lex1 := snd (NextTok.next_ch lex) in
  let found := Ascii.eqb (char_at (NextTok.in_ lex) (S (NextTok.pos lex))) "&" in
  NextTok.next_tok lex
  = Ok ({| NextTok.type := if found then NextTok.TOK_AND else NextTok.TOK_ILLEGAL;
           NextTok.tok_text_pos := NextTok.text_pos lex1;
           NextTok.literal_str := None |},
        if found then snd (NextTok.next_ch lex1) else lex1).
Proof.
  apply (next_tok_operators
           {| NextTok.in_ := String.list_ascii_of_string "a&b";
              NextTok.pos := 1;
              NextTok.text_pos := {| NextTok.line := 1; NextTok.column := 1 |} |}
           "&"%char "&"%char NextTok.TOK_ILLEGAL NextTok.TOK_AND).
  - do 4 right. left. reflexivity.
  - reflexivity.
Defined.

(** X14.  [next_tok] has no identifiers and no numbers.  A letter, an
    underscore or a digit at the cursor is consumed alone and returned as
    [TOK_ILLEGAL]. *)
Theorem next_tok_rejects_words (lex : NextTok.Lex) :
  is_letter (char_at (NextTok.in_ lex) (NextTok.pos lex))
  || isdigit (char_at (NextTok.in_ lex) (NextTok.pos lex)) = true ->
  NextTok.next_tok lex
  = Ok ({| NextTok.type := NextTok.TOK_ILLEGAL;
           NextTok.tok_text_pos := NextTok.text_pos (snd (NextTok.next_ch lex));
           NextTok.literal_str := None |},
        snd (NextTok.next_ch lex)).
Proof.
  intros H. rewrite next_tok_eq.
  destruct (char_at (NextTok.in_ lex) (NextTok.pos lex))
    as [[] [] [] [] [] [] [] []];
    vm_compute in H; try discriminate H; reflexivity.
Qed.

Lemma next_tok_rejects_words_witness :
  let lex := {| NextTok.in_ := String.list_ascii_of_string "x1";
                NextTok.pos := 0;
                NextTok.text_pos := {| NextTok.line := 1; NextTok.column := 0 |} |} in
  NextTok.next_tok lex
  = Ok ({| NextTok.type := NextTok.TOK_ILLEGAL;
           NextTok.tok_text_pos := NextTok.text_pos (snd (NextTok.next_ch lex));
           NextTok.literal_str := None |},
        snd (NextTok.next_ch lex)).
Proof.
  apply (next_tok_rejects_words
           {| NextTok.in_ := String.list_ascii_of_string "x1";
              NextTok.pos := 0;
              NextTok.text_pos := {| NextTok.line := 1; NextTok.column := 0 |} |}).
  reflexivity.
Defined.

Lemma drop_char_at (s : list ascii) (n : nat) (c : ascii) :
  char_at s n = c -> c <> NUL -> drop n s = c :: drop (S n) s.
Proof.
  unfold char_at. revert n. induction s as [|x s IH]; intros n Hc Hne.
  - exfalso. apply Hne. rewrite <- Hc. by destruct n.
  - destruct n as [|n]; simpl in *; [by rewrite Hc|]. by apply IH.
Qed.

Lemma c_string_app (cs tail : list ascii) :
  Forall (fun c => c <> NUL) cs ->
  c_string (cs ++ tail) = cs ++ c_string tail.
Proof.
  induction 1 as [|c cs Hc _ IH]; simpl; [done|].
  destruct (Ascii.eqb_spec c NUL) as [->|_]; [done|]. by rewrite IH.
Qed.

(** The string loop of [next_tok] over a known body. *)
Lemma next_tok_read_str_exact (body : list ascii) (stop : ascii) (fuel : nat)
    (lex : NextTok.Lex) :
  Forall (fun c => c <> DQUOTE /\ c <> NUL) body ->
  take (length body) (drop (NextTok.pos lex) (NextTok.in_ lex)) = body ->
  char_at (NextTok.in_ lex) (NextTok.pos lex + length body) = stop ->
  stop = DQUOTE \/ stop = NUL ->
  length body < fuel ->
  NextTok.read_str fuel lex
  = Ok (NextTok.after_chars (body ++ [stop]) lex, stop).
Proof.
  intros Hbody. revert fuel lex.
  induction Hbody as [|c body [Hq Hn] _ IH];
    intros fuel lex Htake Hstop Hkind Hfuel;
    (destruct fuel as [|fuel]; [simpl in Hfuel; lia|]).
  - rewrite Nat.add_0_r in Hstop. cbn [NextTok.read_str NextTok.next_ch].
    rewrite Hstop.
    replace (negb (Ascii.eqb stop DQUOTE) && negb (Ascii.eqb stop NUL))
      with false by (by destruct Hkind as [-> | ->]).
    reflexivity.
  - simpl in Htake, Hfuel.
    destruct (drop (NextTok.pos lex) (NextTok.in_ lex)) as [|c0 tail] eqn:Hdrop;
      [discriminate Htake|].
    injection Htake as -> Htake.
    apply drop_cons_inv in Hdrop as [Hch Hdrop].
    cbn [NextTok.read_str NextTok.next_ch]. rewrite Hch.
    destruct (Ascii.eqb_spec c DQUOTE) as [|_]; [done|].
    destruct (Ascii.eqb_spec c NUL) as [|_]; [done|].
    cbn [negb andb].
    destruct (next_tok_after_char_in lex c) as [Hin Hpos].
    etrans; [apply (IH fuel (NextTok.after_char lex c)); rewrite ?Hin, ?Hpos|].
    + by rewrite Hdrop.
    + rewrite <- Hstop. f_equal. simpl. lia.
    + done.
    + lia.
    + reflexivity.
Qed.

Lemma next_tok_switch_quote (lex : NextTok.Lex) :
  NextTok.tok_switch DQUOTE lex
  = let* (lex', ch) := NextTok.read_str (NextTok.loop_fuel lex) lex in
    if Ascii.eqb ch NUL
    then Ok ({| NextTok.type := NextTok.TOK_ILLEGAL;
                NextTok.tok_text_pos := NextTok.text_pos lex;
                NextTok.literal_str := None |}, lex')
    else
      let* str := NextTok.copy_literal lex' (NextTok.pos lex) in
      Ok ({| NextTok.type := NextTok.TOK_STR;
             NextTok.tok_text_pos := NextTok.text_pos lex;
             NextTok.literal_str := Some str |}, lex').
Proof. reflexivity. Qed.

(** X15.  String literals of [next_tok].  At an opening quote followed by
    a body without quotes, the string ends at the next quote, a backslash
    before it or not.  The token is then [TOK_STR] and its literal is a new
    block that holds the body and a terminator; the cursor is left after
    the closing quote.  When the input ends before a closing quote the
    token is [TOK_ILLEGAL] with no literal.  Every newline of the body adds
    one to the line of the lexer. *)
Theorem next_tok_reads_string (body : list ascii) (lex : NextTok.Lex) :
  char_at (NextTok.in_ lex) (NextTok.pos lex) = DQUOTE ->
  Forall (fun c => c <> DQUOTE /\ c <> NUL) body ->
  take (length body) (drop (S (NextTok.pos lex)) (NextTok.in_ lex)) = body ->
  let stop := char_at (NextTok.in_ lex) (S (NextTok.pos lex) + length body) in
  stop = DQUOTE \/ stop = NUL ->
  let lex1 := snd (NextTok.next_ch lex) in
  let lex' := NextTok.after_chars (body ++ [stop]) lex1 in
  NextTok.next_tok lex
  = Ok ({| NextTok.type :=
             if Ascii.eqb stop NUL then NextTok.TOK_ILLEGAL
             else NextTok.TOK_STR;
           NextTok.tok_text_pos := NextTok.text_pos lex1;
           NextTok.literal_str :=
             if Ascii.eqb stop NUL then None else Some (body ++ [NUL]) |},
        lex')
  /\ NextTok.pos lex' = NextTok.pos lex + length body + 2
  /\ NextTok.line (NextTok.text_pos lex')
     = NextTok.line (NextTok.text_pos lex)
       + length (filter (fun c => c = NEWLINE) body).
Proof.
  intros Hq Hbody Htake stop Hkind lex1 lex'.
  destruct (next_tok_after_chars_in (body ++ [stop]) lex1) as [Hin Hpos].
  fold lex' in Hin, Hpos. rewrite length_app in Hpos. simpl in Hin, Hpos.
  assert (Hline : NextTok.line (NextTok.text_pos lex')
                  = NextTok.line (NextTok.text_pos lex)
                    + length (filter (fun c => c = NEWLINE) body)).
  { unfold lex'. rewrite next_tok_after_chars_line, filter_app, length_app.
    rewrite filter_cons, decide_False
      by (destruct Hkind as [-> | ->]; discriminate).
    simpl. lia. }
  assert (Hlex1 : snd (NextTok.next_ch lex) = lex1) by reflexivity.
  assert (Hin1 : NextTok.in_ lex1 = NextTok.in_ lex) by reflexivity.
  assert (Hpos1 : NextTok.pos lex1 = S (NextTok.pos lex)) by reflexivity.
  assert (Hlex' : NextTok.after_chars (body ++ [stop]) lex1 = lex')
    by reflexivity.
  clearbody lex' lex1.
  split; [|split; [lia|exact Hline]].
  rewrite next_tok_eq, Hq, Hlex1.
  replace (NextTok.skip_space _ lex1 DQUOTE)
    with (Ok (A := NextTok.Lex * ascii) (lex1, DQUOTE)) by reflexivity.
  cbn [bind]. rewrite next_tok_switch_quote.
  rewrite (next_tok_read_str_exact body stop), Hlex'; rewrite ?Hin1, ?Hpos1;
    try done.
  2:{ unfold NextTok.loop_fuel. rewrite Hin1.
      apply (f_equal length) in Htake.
      rewrite length_take, length_drop in Htake. lia. }
  cbn [bind].
  destruct (Ascii.eqb_spec stop NUL) as [E|E]; [reflexivity|].
  destruct Hkind as [Hstop|]; [|done].
  unfold NextTok.copy_literal. rewrite Hpos, ?Hpos1, Hin.
  replace (S (NextTok.pos lex + (length body + 1)) - S (NextTok.pos lex))
    with (S (length body)) by lia.
  destruct (Nat.ltb_spec (S (length body) - 1) (S (length body))); [|lia].
  cbn [bind]. do 3 f_equal.
  assert (Hdrop : drop (S (NextTok.pos lex)) (NextTok.in_ lex)
                  = body ++ DQUOTE
                    :: drop (S (S (NextTok.pos lex) + length body))
                            (NextTok.in_ lex)).
  { rewrite <- (take_drop (length body)
                  (drop (S (NextTok.pos lex)) (NextTok.in_ lex))) at 1.
    rewrite Htake, drop_drop. f_equal.
    apply drop_char_at; [exact Hstop|done]. }
  unfold NextTok.strncpy. rewrite Hdrop.
  rewrite c_string_app
    by (eapply Forall_impl; [exact Hbody|]; by intros c [_ ?]).
  simpl c_string.
  replace (S (length body)) with (length (body ++ [DQUOTE]))
    by (rewrite length_app; simpl; lia).
  replace ((body ++ DQUOTE :: c_string _) ++ _)
    with ((body ++ [DQUOTE]) ++ (c_string
             (drop (S (S (NextTok.pos lex) + length body)) (NextTok.in_ lex))
           ++ replicate (length (body ++ [DQUOTE])) NUL))
    by (by rewrite <- !app_assoc).
  rewrite take_app_length.
  rewrite length_app. simpl length.
  replace (length body + 1 - 1) with (length body + 0) by lia.
  by rewrite insert_app_r.
Qed.

Lemma next_tok_reads_string_witness :
  let body := ["a"%char; BACKSLASH; NEWLINE; "b"%char] in
  let lex := {| NextTok.in_ := "("%char :: DQUOTE :: body ++ [DQUOTE; ")"%char];
                NextTok.pos := 1;
                NextTok.text_pos := {| NextTok.line := 1; NextTok.column := 1 |} |} in
  let stop := char_at (NextTok.in_ lex) (S (NextTok.pos lex) + length body) in
  let lex1 := snd (NextTok.next_ch lex) in
  let lex' := NextTok.after_chars (body ++ [stop]) lex1 in
  NextTok.next_tok lex
  = Ok ({| NextTok.type :=
             if Ascii.eqb stop NUL then NextTok.TOK_ILLEGAL
             else NextTok.TOK_STR;
           NextTok.tok_text_pos := NextTok.text_pos lex1;
           NextTok.literal_str :=
             if Ascii.eqb stop NUL then None else Some (body ++ [NUL]) |},
        lex')
  /\ NextTok.pos lex' = NextTok.pos lex + length body + 2
  /\ NextTok.line (NextTok.text_pos lex')
     = NextTok.line (NextTok.text_pos lex)
       + length (filter (fun c => c = NEWLINE) body).
Proof.
  apply (next_tok_reads_string ["a"%char; BACKSLASH; NEWLINE; "b"%char]
           {| NextTok.in_ := "("%char :: DQUOTE
                :: ["a"%char; BACKSLASH; NEWLINE; "b"%char]
                ++ [DQUOTE; ")"%char];
              NextTok.pos := 1;
              NextTok.text_pos := {| NextTok.line := 1; NextTok.column := 1 |} |}).
  - reflexivity.
  - repeat constructor; discriminate.
  - reflexivity.
  - left. reflexivity.
Defined.

(** ** More about [read_file] *)

Section ReadFileBounds.

Variable BUFSIZ : nat.
Variable indeterminate : nat -> ascii.

Hypothesis bufsiz_pos : 0 < BUFSIZ.

Lemma realloc_length (buf : list ascii) (n : nat) :
  length buf <= n -> length (realloc indeterminate buf n) = n.
Proof.
  intros H. unfold realloc.
  rewrite length_app, length_take, length_map, length_seq. lia.
Qed.

(** The loop keeps the block [BUFSIZ] bytes longer than what it has
    counted, so every [fread] and the final store stay inside it. *)
Lemma read_loop_in_bounds (fuel : nat) (f input : list ascii) (size : N) :
  length f < fuel ->
  (size + N.of_nat (length f) + N.of_nat BUFSIZ < 2 ^ 32)%N ->
  length input = N.to_nat size + BUFSIZ ->
  exists input',
    read_loop BUFSIZ indeterminate fuel f input size
    = Ok (input', (size + N.of_nat (length f))%N)
    /\ N.to_nat size + length f < length input'.
Proof.
  revert f input size.
  induction fuel as [|fuel IH]; intros f input size Hfuel Hsize Hlen; [lia|].
  destruct (decide (length f = 0)) as [Hnil|Hne].
  { destruct f; [|done]. rewrite read_loop_eof. exists input.
    split; [f_equal; f_equal; simpl; lia|simpl; lia]. }
  destruct (decide (length f < BUFSIZ)) as [Hshort|Hfull].
  { rewrite read_loop_unfold. cbv zeta.
    rewrite take_ge by lia. unfold store_chunk.
    destruct (Nat.leb_spec (length f) (length input)); [|lia]. cbn [bind].
    rewrite (wrap32_small (N.of_nat (length f))) by lia.
    destruct (N.ltb_spec 0 (N.of_nat (length f))); [|lia].
    rewrite (wrap32_small (N.of_nat BUFSIZ)) by lia.
    destruct (N.leb_spec (N.of_nat BUFSIZ) (N.of_nat (length f))); [lia|].
    rewrite drop_ge by lia. rewrite read_loop_eof.
    rewrite wrap32_small by lia.
    eexists. split; [reflexivity|].
    rewrite length_app, length_drop. lia. }
  rewrite read_loop_unfold. cbv zeta.
  assert (Htake : length (take BUFSIZ f) = BUFSIZ)
    by (rewrite length_take; lia).
  unfold store_chunk. rewrite Htake.
  destruct (Nat.leb_spec BUFSIZ (length input)); [|lia]. cbn [bind].
  rewrite !(wrap32_small (N.of_nat BUFSIZ)) by lia.
  destruct (N.ltb_spec 0 (N.of_nat BUFSIZ)); [|lia].
  destruct (N.leb_spec (N.of_nat BUFSIZ) (N.of_nat BUFSIZ)); [|lia].
  rewrite (wrap32_small (size + N.of_nat BUFSIZ)) by lia.
  rewrite (wrap32_small (size + N.of_nat BUFSIZ + N.of_nat BUFSIZ)) by lia.
  set (input1 := realloc indeterminate _ _).
  assert (Hlen1 : length input1
                  = N.to_nat (size + N.of_nat BUFSIZ) + BUFSIZ).
  { unfold input1. rewrite realloc_length.
    - lia.
    - rewrite length_app, Htake, length_drop. lia. }
  destruct (IH (drop BUFSIZ f) input1 (size + N.of_nat BUFSIZ)%N)
    as (input' & Heq & Hbound).
  - rewrite length_drop. lia.
  - rewrite length_drop. lia.
  - exact Hlen1.
  - exists input'. rewrite Heq, length_drop. split.
    + do 2 f_equal. lia.
    + rewrite length_drop in Hbound. lia.
Qed.

End ReadFileBounds.

(** X16.  [read_file] stays inside its block.  For every readable file
    whose length plus [BUFSIZ] fits in 32 bits, [read_file] returns without
    printing: no [fread] and no store goes outside the block, which ends up
    longer than the file, and the terminator is stored at the offset equal
    to the length of the file. *)
Theorem read_file_in_bounds (BUFSIZ : nat) (indeterminate : nat -> ascii)
    (fs : string -> option (list ascii)) (filename : string)
    (content : list ascii) :
  0 < BUFSIZ ->
  (N.of_nat (length content) + N.of_nat BUFSIZ < 2 ^ 32)%N ->
  fs filename = Some content ->
  exists block,
    read_file (object := unit) BUFSIZ indeterminate fs filename
    = ([], Ok block)
    /\ length content < length block
    /\ block !! length content = Some NUL.
Proof.
  intros Hpos Hsize Hfs. unfold read_file. rewrite Hfs.
  destruct (read_loop_in_bounds BUFSIZ indeterminate Hpos
              (S (length content)) content (calloc BUFSIZ) 0)
    as (input' & -> & Hbound).
  - lia.
  - lia.
  - unfold calloc. rewrite length_replicate. lia.
  - cbn [bind]. unfold store_byte.
    rewrite N.add_0_l, Nat2N.id. simpl in Hbound.
    destruct (Nat.ltb_spec (length content) (length input')); [|lia].
    eexists. split; [reflexivity|]. rewrite length_insert.
    split; [lia|]. by apply list_lookup_insert_eq.
Qed.

Lemma read_file_in_bounds_witness :
  let content := replicate 600 "a"%char in
  exists block,
    read_file (object := unit) 256 (fun _ => "?"%char)
              (fun _ => Some content) "script.pep"
    = ([], Ok block)
    /\ length content < length block
    /\ block !! length content = Some NUL.
Proof.
  apply (read_file_in_bounds 256 (fun _ => "?"%char)
           (fun _ => Some (replicate 600 "a"%char)) "script.pep"
           (replicate 600 "a"%char)).
  - lia.
  - rewrite length_replicate. reflexivity.
  - reflexivity.
Defined.

(** X17.  Small files are read exactly.  A readable file of at most
    [BUFSIZ] bytes that holds no NUL byte is returned as it is: the string
    in the block that [read_file] returns is the contents of the file.  A
    file of exactly [BUFSIZ] bytes fills the first block, which is then
    grown, and the terminator lands after it. *)
Theorem read_file_returns_small_file (BUFSIZ : nat)
    (indeterminate : nat -> ascii) (fs : string -> option (list ascii))
    (filename : string) (content : list ascii) :
  0 < BUFSIZ -> (2 * N.of_nat BUFSIZ < 2 ^ 32)%N ->
  fs filename = Some content ->
  length content <= BUFSIZ ->
  Forall (fun c => c <> NUL) content ->
  exists block,
    read_file (object := unit) BUFSIZ indeterminate fs filename
    = ([], Ok block)
    /\ c_string block = content.
Proof.
  intros Hpos Hsmall Hfs Hlen Hnul.
  destruct (decide (length content < BUFSIZ)) as [Hlt|Hge].
  { by apply (read_file_short BUFSIZ indeterminate Hpos Hsmall fs filename
                content). }
  assert (Hfull : length content = BUFSIZ) by lia.
  unfold read_file. rewrite Hfs. unfold calloc.
  rewrite read_loop_unfold. cbv zeta.
  rewrite take_ge by lia. unfold store_chunk.
  rewrite Hfull, length_replicate.
  destruct (Nat.leb_spec BUFSIZ BUFSIZ); [|lia]. cbn [bind].
  rewrite drop_replicate, Nat.sub_diag. simpl replicate. rewrite app_nil_r.
  rewrite !(wrap32_small (N.of_nat BUFSIZ)) by lia.
  destruct (N.ltb_spec 0 (N.of_nat BUFSIZ)); [|lia].
  destruct (N.leb_spec (N.of_nat BUFSIZ) (N.of_nat BUFSIZ)); [|lia].
  rewrite N.add_0_l.
  rewrite (wrap32_small (N.of_nat BUFSIZ)) by lia.
  rewrite (wrap32_small (N.of_nat BUFSIZ + N.of_nat BUFSIZ)) by lia.
  rewrite drop_ge by lia. rewrite read_loop_eof. cbn [bind].
  unfold realloc, store_byte. rewrite take_ge by lia.
  rewrite length_app, length_map, length_seq, Hfull, Nat2N.id.
  replace (N.to_nat (N.of_nat BUFSIZ + N.of_nat BUFSIZ) - BUFSIZ)
    with BUFSIZ by lia.
  destruct (Nat.ltb_spec BUFSIZ (BUFSIZ + BUFSIZ)); [|lia].
  eexists. split; [reflexivity|].
  rewrite insert_app_r_alt by lia. rewrite Hfull, Nat.sub_diag.
  destruct BUFSIZ as [|n]; [lia|]. simpl seq. simpl map. simpl insert.
  by apply c_string_app_nul.
Qed.

Lemma read_file_returns_small_file_witness :
  let content := replicate 256 "a"%char in
  exists block,
    read_file (object := unit) 256 (fun _ => "?"%char)
              (fun _ => Some content) "script.pep"
    = ([], Ok block)
    /\ c_string block = content.
Proof.
  apply (read_file_returns_small_file 256 (fun _ => "?"%char)
           (fun _ => Some (replicate 256 "a"%char)) "script.pep"
           (replicate 256 "a"%char)).
  - lia.
  - reflexivity.
  - reflexivity.
  - rewrite length_replicate. lia.
  - apply Forall_forall. intros c Hc.
    apply elem_of_replicate in Hc as [-> _]. discriminate.
Defined.

(** ** The prompts of the REPL *)

Section Prompts.

Context {I : Interpreter}.

Lemma prompts_app (out1 out2 : list (out_event object)) :
  prompts (out1 ++ out2) = prompts out1 + prompts out2.
Proof. unfold prompts. by rewrite List.filter_app, length_app. Qed.

Lemma prompts_print_errors (p : parser) :
  prompts (print_errors (fun m => Printf "- %s\n" [ArgStr m]) p) = 0.
Proof.
  unfold print_errors, prompts.
  induction (seq 0 (errors p)) as [|i is_ IH]; simpl; [done|]. exact IH.
Qed.

(** A round prints one prompt, whatever becomes of the submission. *)
Lemma repl_body_prompts (st : repl_state) (line : option (list ascii)) :
  prompts (fst (repl_body st line)) = 1.
Proof.
  destruct line as [input|]; [|reflexivity].
  destruct (parse_program (new_parser (new_lexer input))) as [prog p] eqn:Hparse.
  destruct (Nat.ltb_spec 0 (errors p)) as [Hp|Hp].
  { rewrite (repl_body_parse_error st input prog p) by done.
    cbn [fst].
    change (Printf ">> " [] :: Printf "Parsing error:\n" [] :: ?tl)
      with ([Printf (object := object) ">> " []; Printf "Parsing error:\n" []] ++ tl).
    by rewrite prompts_app, prompts_print_errors. }
  assert (Herr : errors p = 0) by lia.
  destruct (compile_program
              (compiler_new_with_state (st_symbol_table st) (st_constants st))
              prog) as [cerr c] eqn:Hcompile.
  destruct (Z.eqb_spec cerr 0) as [->|Hc].
  2:{ by rewrite (repl_body_compile_error st input prog p cerr c). }
  destruct (vm_run (vm_new_with_globals (get_bytecode c) (st_globals st)))
    as [verr m] eqn:Hrun.
  destruct (Z.eqb_spec verr 0) as [->|Hv].
  2:{ by rewrite (repl_body_runtime_error st input prog p c verr m). }
  rewrite (repl_body_success st input prog p c m) by done.
  cbn [fst]. by destruct (_ && _).
Qed.

Lemma repl_loop_prompts (fuel : nat) (stdin : nat -> option (list ascii))
    (k : nat) (st : repl_state) :
  prompts (fst (repl_loop fuel stdin k st)) = fuel.
Proof.
  revert k st. induction fuel as [|fuel IH]; intros k st; simpl; [done|].
  pose proof (repl_body_prompts st (stdin k)) as Hbody.
  destruct (repl_body_next st (stdin k)) as (st' & Hnext & _).
  destruct (repl_body st (stdin k)) as [out step]. simpl in Hnext, Hbody.
  subst step. specialize (IH (S k) st').
  destruct (repl_loop fuel stdin (S k) st') as [out' r]. simpl in *.
  rewrite prompts_app. lia.
Qed.

(** X18.  One prompt per round.  Whatever the submissions are and however
    they end (end of input, parse error, compile error, runtime error or
    success), the output of the REPL after [n] rounds holds exactly [n]
    prompts: every round prints the prompt once, and nothing else that the
    REPL prints is a prompt. *)
Theorem repl_one_prompt_per_round (n : nat)
    (stdin : nat -> option (list ascii)) (globals : list object) :
  prompts (fst (repl n stdin globals)) = n.
Proof.
  unfold repl, bind_out. 
  pose proof (repl_loop_prompts n stdin 0
                {| st_symbol_table := symbol_table_new;
                   st_constants := make_object_list 64;
                   st_globals := globals |}) as Hloop.
  pose proof (repl_loop_running n stdin 0
                {| st_symbol_table := symbol_table_new;
                   st_constants := make_object_list 64;
                   st_globals := globals |}) as Hrun.
  destruct (repl_loop n stdin 0 _) as [out r]. simpl in Hloop, Hrun.
  subst r. cbn [fst]. rewrite prompts_app. rewrite Hloop. reflexivity.
Qed.

End Prompts.

